(** * Field-aware factorization machine: the model of [ffm-model.cpp]

    A shallow embedding of the parameter store and of the two kernels
    [ffm_model::predict] and [ffm_model::update], followed by the
    properties of the kernels.

    Single-precision arithmetic is kept abstract: every definition is
    written over an interface [FloatOps] that names the operations the
    C++ code applies (in the order it applies them).  Properties that only
    depend on the data flow are proved for every implementation of the
    interface; properties that depend on the arithmetic are proved for
    the IEEE binary32 implementation [binary32_ops], in which the result
    of [_mm256_rsqrt_ps], an estimate that differs between processors, is
    a parameter. *)

From Stdlib Require Import NArith ZArith List Bool Lia.
From Stdlib Require Import Floats.SpecFloat.
From Stdlib Require Import FunctionalExtensionality.
Import ListNotations.

Local Open Scope N_scope.

(** ** Scalar arithmetic *)

(** The operations on [ffm_float] used by the kernels.  [frsqrt] is one
    lane of [_mm256_rsqrt_ps], [of_count] is the conversion of the
    pointer difference [end - start] to [ffm_float]. *)
Class FloatOps (F : Type) : Type := {
  fzero : F;
  fone : F;
  fadd : F -> F -> F;
  fsub : F -> F -> F;
  fmul : F -> F -> F;
  fdiv : F -> F -> F;
  fsqrt : F -> F;
  frsqrt : F -> F;
  of_count : N -> F
}.

Declare Scope ffm_scope.
Delimit Scope ffm_scope with ffm.
Notation "x [+] y" := (fadd x y) (at level 50, left associativity) : ffm_scope.
Notation "x [-] y" := (fsub x y) (at level 50, left associativity) : ffm_scope.
Notation "x [*] y" := (fmul x y) (at level 40, left associativity) : ffm_scope.
Notation "x [/] y" := (fdiv x y) (at level 40, left associativity) : ffm_scope.

(** ** Compile-time constants (lines 16-28) *)

Definition align_bytes : N := 32.

(** Modelled from the spec: [ffm_float] is declared in the header
    [ffm-model.h], which is not part of the sources; the kernels load it
    with [_mm256_load_ps], so it is the 4-byte single-precision type. *)
Definition sizeof_ffm_float : N := 4.

Definition align_floats : N := align_bytes / sizeof_ffm_float.

Definition n_fields : N := 30.

Definition n_dim : N := 14.
Definition n_dim_aligned : N := ((n_dim - 1) / align_floats + 1) * align_floats.

Definition index_stride : N := n_fields * n_dim_aligned * 2.
Definition field_stride : N := n_dim_aligned * 2.

(** [ffm_uint] is declared in the missing header.  The pair counter it
    holds reaches [test_mask_bit] through a parameter of type [uint],
    32 bits wide on the platforms of [immintrin.h]: the model wraps the
    counter, and the block count handed to [init_weights], at that width. *)
Definition uint_bits : N := 32.
Definition uint_wrap (x : N) : N := x mod 2 ^ uint_bits.

(** ** Control structure *)

(** [for (d = from; d < bound; d += step) s = body d s].  The fuel bounds
    the number of iterations; [bound] units of fuel always suffice when
    [step] is positive. *)
Fixpoint for_loop {A : Type} (fuel : nat) (d bound step : N)
    (body : N -> A -> A) (s : A) : A :=
  match fuel with
  | O => s
  | S fuel' =>
      if d <? bound
      then for_loop fuel' (d + step) bound step body (body d s)
      else s
  end.

(** The lane loop of both kernels: [for (d = 0; d < n_dim; d += 8)]. *)
Definition over_dims {A : Type} (body : N -> A -> A) (s : A) : A :=
  for_loop (N.to_nat n_dim) 0 n_dim 8 body s.

(** ** The dropout mask (lines 31-33) *)

(** The mask is an array of 64-bit words; the model reads it as a total
    map from word index to word. *)
Definition test_mask_bit (mask : N -> N) (i : N) : N :=
  N.land (N.shiftr (mask (N.shiftr i 6)) (N.land i 63)) 1.

(** ** Trace of the pair enumeration

    Each inner-loop iteration that reaches the mask test leaves one
    event: the positions of [fa] and [fb] in the feature list, the value
    of the pair counter [i] at the test, and whether the arithmetic of the
    pair was executed. *)
Record event : Type := {
  ev_a : nat;
  ev_b : nat;
  ev_i : N;
  ev_applied : bool
}.

(** [ffm_hash_bits] is a constant of the missing header: a parameter
    of the development.  The source computes [1 << ffm_hash_bits] as a
    constant [int] expression, so the constant is below 31 and none of
    the index products of the kernels wraps. *)
Class HashBits : Type := ffm_hash_bits : N.

Section Model.

Context {F : Type} {ops : FloatOps F} {hb : HashBits}.
Local Open Scope ffm_scope.

(** Modelled from the spec: [ffm_hash_mask] is declared in the missing
    header; the spec gives [hash_mask = (1 << hash_bits) - 1]. *)
Definition ffm_hash_mask : N := N.shiftl 1 ffm_hash_bits - 1.

Definition n_features : N := N.shiftl 1 ffm_hash_bits.

(** ** 256-bit registers and their intrinsics *)

Record m256 : Type := mk256 {
  l0 : F; l1 : F; l2 : F; l3 : F; l4 : F; l5 : F; l6 : F; l7 : F
}.

Definition lane (v : m256) (j : N) : F :=
  match j with
  | 0 => l0 v | 1 => l1 v | 2 => l2 v | 3 => l3 v
  | 4 => l4 v | 5 => l5 v | 6 => l6 v | _ => l7 v
  end.

Definition lanewise1 (f : F -> F) (x : m256) : m256 :=
  mk256 (f (l0 x)) (f (l1 x)) (f (l2 x)) (f (l3 x))
        (f (l4 x)) (f (l5 x)) (f (l6 x)) (f (l7 x)).

Definition lanewise2 (f : F -> F -> F) (x y : m256) : m256 :=
  mk256 (f (l0 x) (l0 y)) (f (l1 x) (l1 y)) (f (l2 x) (l2 y)) (f (l3 x) (l3 y))
        (f (l4 x) (l4 y)) (f (l5 x) (l5 y)) (f (l6 x) (l6 y)) (f (l7 x) (l7 y)).

Definition _mm256_set1_ps (x : F) : m256 := mk256 x x x x x x x x.
Definition _mm256_add_ps : m256 -> m256 -> m256 := lanewise2 fadd.
Definition _mm256_sub_ps : m256 -> m256 -> m256 := lanewise2 fsub.
Definition _mm256_mul_ps : m256 -> m256 -> m256 := lanewise2 fmul.
Definition _mm256_rsqrt_ps : m256 -> m256 := lanewise1 frsqrt.

(** Memory is a flat array of floats addressed by float offset. *)
Definition _mm256_load_ps (mem : N -> F) (p : N) : m256 :=
  mk256 (mem p) (mem (p + 1)) (mem (p + 2)) (mem (p + 3))
        (mem (p + 4)) (mem (p + 5)) (mem (p + 6)) (mem (p + 7)).

Definition _mm256_store_ps (p : N) (v : m256) (mem : N -> F) : N -> F :=
  fun off => if (p <=? off) && (off <? p + 8) then lane v (off - p) else mem off.

(** A scalar store [mem[p] = v]. *)
Definition store (p : N) (v : F) (mem : N -> F) : N -> F :=
  fun off => if off =? p then v else mem off.

(** [sum] (lines 42-52): the halves are added ([_mm256_permute2f128_ps]
    with selector 1 swaps them, [_mm256_extractf128_ps] keeps the low
    one), then two horizontal additions leave the total in lane 0. *)
Definition sum (val : m256) : F :=
  let s0 := l0 val [+] l4 val in
  let s1 := l1 val [+] l5 val in
  let s2 := l2 val [+] l6 val in
  let s3 := l3 val [+] l7 val in
  (s0 [+] s1) [+] (s2 [+] s3).

(** ** Data model *)

Record ffm_feature : Type := {
  index : N;
  value : F
}.

(** The two buffers are read as total maps from float offset to float:
    an access past the allocated size, which the source does not check,
    is not told apart from one inside. *)
Record ffm_model : Type := {
  eta : F;
  lambda : F;
  max_b_field : N;
  min_a_field : N;
  bias_w : F;
  bias_wg : F;
  weights : N -> F;
  linear_weights : N -> F
}.

(** The two halves of a combined index, as every loop computes them. *)
Definition hashed_index (f : ffm_feature) : N := N.land (index f) ffm_hash_mask.
Definition field_of (f : ffm_feature) : N := N.shiftr (index f) ffm_hash_bits.

(** Offset of the interaction block read for feature index [idx] against
    field [fld]: [weights + idx * index_stride + fld * field_stride]. *)
Definition block_offset (idx fld : N) : N := idx * index_stride + fld * field_stride.

(** ** Construction (lines 55-115) *)

Record init_state : Type := {
  iw_ptr : N;
  iw_drawn : N;
  iw_mem : N -> F
}.

(** [init_weights]; [draws k] is the value of the [k]-th call [gen(rnd)].
    First the body of the loop on [i] (lines 72-79): [n_dim] drawn
    weights, zeros up to [n_dim_aligned], then ones up to
    [2 * n_dim_aligned], the pointer [w] advancing by one each time. *)
Definition init_weights_block (draws : N -> F) (s0 : init_state) : init_state :=
  let s1 :=
    for_loop (N.to_nat n_dim) 0 n_dim 1
      (fun _ s =>
         {| iw_ptr := iw_ptr s + 1;
            iw_drawn := iw_drawn s + 1;
            iw_mem := store (iw_ptr s) (draws (iw_drawn s)) (iw_mem s) |}) s0 in
  let s2 :=
    for_loop (N.to_nat n_dim_aligned) n_dim n_dim_aligned 1
      (fun _ s =>
         {| iw_ptr := iw_ptr s + 1;
            iw_drawn := iw_drawn s;
            iw_mem := store (iw_ptr s) fzero (iw_mem s) |}) s1 in
  for_loop (N.to_nat (2 * n_dim_aligned)) n_dim_aligned (2 * n_dim_aligned) 1
    (fun _ s =>
       {| iw_ptr := iw_ptr s + 1;
          iw_drawn := iw_drawn s;
          iw_mem := store (iw_ptr s) fone (iw_mem s) |}) s2.

Definition init_weights (draws : N -> F) (mem : N -> F) (n : N) : N -> F :=
  iw_mem
    (for_loop (N.to_nat n) 0 n 1 (fun _ s => init_weights_block draws s)
       {| iw_ptr := 0; iw_drawn := 0; iw_mem := mem |}).

(** [init_linear_weights]. *)
Definition init_linear_weights (mem : N -> F) (n : N) : N -> F :=
  snd
    (for_loop (N.to_nat n) 0 n 1
       (fun _ s =>
          let '(w, mem) := s in
          (w + 2, store (w + 1) fone (store w fzero mem)))
       (0, mem)).

(** [malloc_aligned_float]: [alloc] is the outcome of [posix_memalign],
    [None] when its status is not 0 (the C++ code then throws). *)
Definition malloc_aligned_float (alloc : option (N -> F)) : option (N -> F) := alloc.

(** The constructor.  [draws] stands for the seeded engine [rnd(seed)]
    seen through the uniform distribution; the block count is received
    by [init_weights] in an [ffm_uint]. *)
Definition ffm_model_ctor (draws : N -> F) (alloc_w alloc_l : option (N -> F))
    (restricted : bool) (eta0 lambda0 : F) : option ffm_model :=
  let maxb := if restricted then 19 else n_fields in
  let mina := if restricted then 10 else 0 in
  match malloc_aligned_float alloc_w with
  | None => None
  | Some raw_w =>
      match malloc_aligned_float alloc_l with
      | None => None
      | Some raw_l =>
          Some {| eta := eta0;
                  lambda := lambda0;
                  max_b_field := maxb;
                  min_a_field := mina;
                  bias_w := fzero;
                  bias_wg := fone;
                  weights := init_weights draws raw_w (uint_wrap (n_features * n_fields));
                  linear_weights := init_linear_weights raw_l (uint_wrap n_features) |}
      end
  end.

(** ** Prediction (lines 122-177) *)

Record predict_state : Type := {
  p_i : N;
  p_total : m256;
  p_log : list event
}.

(** Lines 162-172: the arithmetic of one pair. *)
Definition predict_pair (m : ffm_model) (fa fb : ffm_feature) (norm : F)
    (xmm_total : m256) : m256 :=
  let index_a := hashed_index fa in
  let field_a := field_of fa in
  let value_a := value fa in
  let index_b := hashed_index fb in
  let field_b := field_of fb in
  let value_b := value fb in
  let wa := index_a * index_stride + field_b * field_stride in
  let wb := index_b * index_stride + field_a * field_stride in
  let xmm_val := _mm256_set1_ps (value_a [*] value_b [/] norm) in
  over_dims
    (fun d xmm_total =>
       let xmm_wa := _mm256_load_ps (weights m) (wa + d) in
       let xmm_wb := _mm256_load_ps (weights m) (wb + d) in
       _mm256_add_ps xmm_total (_mm256_mul_ps (_mm256_mul_ps xmm_wa xmm_wb) xmm_val))
    xmm_total.

(** Lines 140-173: the inner loop, [fb] running over [fbs], the features
    from position [b] up to [fa] (excluded).  The prefetch of lines
    148-154 is a cache hint without effect on any value and is left out. *)
Fixpoint predict_inner (m : ffm_model) (fa : ffm_feature) (a : nat) (norm : F)
    (mask : N -> N) (fbs : list ffm_feature) (b : nat) (st : predict_state)
    : predict_state :=
  match fbs with
  | [] => st
  | fb :: fbs' =>
      let field_b := field_of fb in
      if max_b_field m <? field_b then st
      else if test_mask_bit mask (p_i st) =? 0 then
        predict_inner m fa a norm mask fbs' (S b)
          {| p_i := uint_wrap (p_i st + 1);
             p_total := p_total st;
             p_log := p_log st ++ [{| ev_a := a; ev_b := b; ev_i := p_i st;
                                      ev_applied := false |}] |}
      else
        predict_inner m fa a norm mask fbs' (S b)
          {| p_i := uint_wrap (p_i st + 1);
             p_total := predict_pair m fa fb norm (p_total st);
             p_log := p_log st ++ [{| ev_a := a; ev_b := b; ev_i := p_i st;
                                      ev_applied := true |}] |}
  end.

(** Lines 130-174: the outer loop, [fa] running over [rest], the features
    from position [a] on; [start] is the whole feature list. *)
Fixpoint predict_outer (m : ffm_model) (start : list ffm_feature) (linear_norm norm : F)
    (mask : N -> N) (a : nat) (rest : list ffm_feature)
    (linear_total : F) (st : predict_state) : F * predict_state :=
  match rest with
  | [] => (linear_total, st)
  | fa :: rest' =>
      let index_a := hashed_index fa in
      let field_a := field_of fa in
      let value_a := value fa in
      let linear_total :=
        linear_total [+] value_a [*] linear_weights m (index_a * 2) [/] linear_norm in
      if field_a <? min_a_field m
      then predict_outer m start linear_norm norm mask (S a) rest' linear_total st
      else predict_outer m start linear_norm norm mask (S a) rest' linear_total
             (predict_inner m fa a norm mask (firstn a start) 0 st)
  end.

Definition predict_loop (m : ffm_model) (start : list ffm_feature) (norm : F)
    (mask : N -> N) : F * predict_state :=
  let linear_total := fzero in
  let linear_norm := of_count (N.of_nat (length start)) in
  let xmm_total := _mm256_set1_ps (bias_w m) in
  predict_outer m start linear_norm norm mask 0 start linear_total
    {| p_i := 0; p_total := xmm_total; p_log := [] |}.

Definition predict (m : ffm_model) (start : list ffm_feature) (norm : F)
    (mask : N -> N) : F :=
  let '(linear_total, st) := predict_loop m start norm mask in
  sum (p_total st) [+] linear_total.

(** ** Update (lines 180-264) *)

Record update_state : Type := {
  u_i : N;
  u_weights : N -> F;
  u_linear_weights : N -> F;
  u_log : list event
}.

(** Lines 241-242: the gradient of one block against the other. *)
Definition xmm_grad (xmm_lambda xmm_kappa_val xmm_self xmm_other : m256) : m256 :=
  _mm256_add_ps (_mm256_mul_ps xmm_lambda xmm_self) (_mm256_mul_ps xmm_kappa_val xmm_other).

(** Lines 232-257: one 8-lane step on the blocks at [wa] and [wb]. *)
Definition update_lanes (xmm_eta xmm_lambda xmm_kappa_val : m256) (wa wb : N)
    (d : N) (w : N -> F) : N -> F :=
  let wga := wa + n_dim_aligned in
  let wgb := wb + n_dim_aligned in
  let xmm_wa := _mm256_load_ps w (wa + d) in
  let xmm_wb := _mm256_load_ps w (wb + d) in
  let xmm_wga := _mm256_load_ps w (wga + d) in
  let xmm_wgb := _mm256_load_ps w (wgb + d) in
  let xmm_ga := xmm_grad xmm_lambda xmm_kappa_val xmm_wa xmm_wb in
  let xmm_gb := xmm_grad xmm_lambda xmm_kappa_val xmm_wb xmm_wa in
  let xmm_wga := _mm256_add_ps xmm_wga (_mm256_mul_ps xmm_ga xmm_ga) in
  let xmm_wgb := _mm256_add_ps xmm_wgb (_mm256_mul_ps xmm_gb xmm_gb) in
  let xmm_wa :=
    _mm256_sub_ps xmm_wa
      (_mm256_mul_ps xmm_eta (_mm256_mul_ps (_mm256_rsqrt_ps xmm_wga) xmm_ga)) in
  let xmm_wb :=
    _mm256_sub_ps xmm_wb
      (_mm256_mul_ps xmm_eta (_mm256_mul_ps (_mm256_rsqrt_ps xmm_wgb) xmm_gb)) in
  _mm256_store_ps (wgb + d) xmm_wgb
    (_mm256_store_ps (wga + d) xmm_wga
       (_mm256_store_ps (wb + d) xmm_wb
          (_mm256_store_ps (wa + d) xmm_wa w))).

(** Lines 224-257: the arithmetic of one pair. *)
Definition update_pair (m : ffm_model) (fa fb : ffm_feature) (norm kappa : F)
    (w : N -> F) : N -> F :=
  let xmm_eta := _mm256_set1_ps (eta m) in
  let xmm_lambda := _mm256_set1_ps (lambda m) in
  let index_a := hashed_index fa in
  let field_a := field_of fa in
  let value_a := value fa in
  let index_b := hashed_index fb in
  let field_b := field_of fb in
  let value_b := value fb in
  let wa := index_a * index_stride + field_b * field_stride in
  let wb := index_b * index_stride + field_a * field_stride in
  let xmm_kappa_val := _mm256_set1_ps (kappa [*] value_a [*] value_b [/] norm) in
  over_dims (update_lanes xmm_eta xmm_lambda xmm_kappa_val wa wb) w.

(** Lines 202-258: the inner loop (prefetch left out as in [predict_inner]). *)
Fixpoint update_inner (m : ffm_model) (fa : ffm_feature) (a : nat) (norm kappa : F)
    (mask : N -> N) (fbs : list ffm_feature) (b : nat) (st : update_state)
    : update_state :=
  match fbs with
  | [] => st
  | fb :: fbs' =>
      let field_b := field_of fb in
      if max_b_field m <? field_b then st
      else if test_mask_bit mask (u_i st) =? 0 then
        update_inner m fa a norm kappa mask fbs' (S b)
          {| u_i := uint_wrap (u_i st + 1);
             u_weights := u_weights st;
             u_linear_weights := u_linear_weights st;
             u_log := u_log st ++ [{| ev_a := a; ev_b := b; ev_i := u_i st;
                                      ev_applied := false |}] |}
      else
        update_inner m fa a norm kappa mask fbs' (S b)
          {| u_i := uint_wrap (u_i st + 1);
             u_weights := update_pair m fa fb norm kappa (u_weights st);
             u_linear_weights := u_linear_weights st;
             u_log := u_log st ++ [{| ev_a := a; ev_b := b; ev_i := u_i st;
                                      ev_applied := true |}] |}
  end.

(** Lines 193-197: the step on the linear weight of [fa]. *)
Definition update_linear (m : ffm_model) (fa : ffm_feature) (linear_norm kappa : F)
    (lw : N -> F) : N -> F :=
  let index_a := hashed_index fa in
  let value_a := value fa in
  let g := lambda m [*] lw (index_a * 2) [+] kappa [*] value_a [/] linear_norm in
  let wg := lw (index_a * 2 + 1) [+] g [*] g in
  store (index_a * 2 + 1) wg
    (store (index_a * 2) (lw (index_a * 2) [-] eta m [*] g [/] fsqrt wg) lw).

(** Lines 188-259: the outer loop. *)
Fixpoint update_outer (m : ffm_model) (start : list ffm_feature)
    (linear_norm norm kappa : F) (mask : N -> N) (a : nat)
    (rest : list ffm_feature) (st : update_state) : update_state :=
  match rest with
  | [] => st
  | fa :: rest' =>
      let field_a := field_of fa in
      let st :=
        {| u_i := u_i st;
           u_weights := u_weights st;
           u_linear_weights := update_linear m fa linear_norm kappa (u_linear_weights st);
           u_log := u_log st |} in
      if field_a <? min_a_field m
      then update_outer m start linear_norm norm kappa mask (S a) rest' st
      else update_outer m start linear_norm norm kappa mask (S a) rest'
             (update_inner m fa a norm kappa mask (firstn a start) 0 st)
  end.

Definition update_loop (m : ffm_model) (start : list ffm_feature) (norm kappa : F)
    (mask : N -> N) : update_state :=
  let linear_norm := of_count (N.of_nat (length start)) in
  update_outer m start linear_norm norm kappa mask 0 start
    {| u_i := 0; u_weights := weights m; u_linear_weights := linear_weights m;
       u_log := [] |}.

Definition update (m : ffm_model) (start : list ffm_feature) (norm kappa : F)
    (mask : N -> N) : ffm_model :=
  let st := update_loop m start norm kappa mask in
  let bias_wg' := bias_wg m [+] kappa in
  {| eta := eta m;
     lambda := lambda m;
     max_b_field := max_b_field m;
     min_a_field := min_a_field m;
     bias_w := bias_w m [-] eta m [*] kappa [/] fsqrt bias_wg';
     bias_wg := bias_wg';
     weights := u_weights st;
     linear_weights := u_linear_weights st |}.

(** ** Reference definitions, used to state the properties *)

(** The linear term as the specification words it: every feature adds
    [value * linear_weight / |features|]. *)
Definition linear_term (m : ffm_model) (start : list ffm_feature) : F :=
  fold_left
    (fun acc f =>
       acc [+] value f [*] linear_weights m (hashed_index f * 2)
                 [/] of_count (N.of_nat (length start)))
    start fzero.

(** Length of an inner scan: the leading candidates whose field does not
    exceed [max_b]. *)
Fixpoint scan_length (max_b : N) (fbs : list ffm_feature) : nat :=
  match fbs with
  | [] => O
  | fb :: fbs' => if max_b <? field_of fb then O else S (scan_length max_b fbs')
  end.

(** The pairs of positions [(a, b)] the specification enumerates, in its
    order: [a] ascending, skipped when its field is below [min_a_field];
    then [b] ascending from the start of the list and before [a], up to
    the first candidate whose field exceeds [max_b_field]. *)
Definition tested_pairs (m : ffm_model) (start : list ffm_feature) : list (nat * nat) :=
  flat_map
    (fun a =>
       match nth_error start a with
       | Some fa =>
           if field_of fa <? min_a_field m then []
           else map (fun b => (a, b)) (seq 0 (scan_length (max_b_field m) (firstn a start)))
       | None => []
       end)
    (seq 0 (length start)).

(** Successive values of the pair counter. *)
Definition counters (n : nat) : list N :=
  map (fun k => uint_wrap (N.of_nat k)) (seq 0 n).

Definition default_feature : ffm_feature := {| index := 0; value := fzero |}.

(** The accumulator of [predict] and the weights of [update] rebuilt from
    a trace: only the events marked as applied contribute. *)
Definition replay_predict (m : ffm_model) (start : list ffm_feature) (norm : F)
    (log : list event) : m256 :=
  fold_left
    (fun acc e =>
       if ev_applied e
       then predict_pair m (nth (ev_a e) start default_feature)
              (nth (ev_b e) start default_feature) norm acc
       else acc)
    log (_mm256_set1_ps (bias_w m)).

Definition replay_update (m : ffm_model) (start : list ffm_feature) (norm kappa : F)
    (log : list event) : N -> F :=
  fold_left
    (fun w e =>
       if ev_applied e
       then update_pair m (nth (ev_a e) start default_feature)
              (nth (ev_b e) start default_feature) norm kappa w
       else w)
    log (weights m).

(** A mask all of whose bits are clear. *)
Definition zero_mask (mask : N -> N) : Prop := forall i, test_mask_bit mask i = 0.

(** An event is gated by the mask: its arithmetic ran exactly when the
    bit numbered by its counter value is 1. *)
Definition gated (mask : N -> N) (e : event) : Prop :=
  ev_applied e = (test_mask_bit mask (ev_i e) =? 1).

Definition positions (log : list event) : list (nat * nat) :=
  map (fun e => (ev_a e, ev_b e)) log.

(** What holds of the state of [predict] between two iterations. *)
Definition predict_inv (m : ffm_model) (start : list ffm_feature) (norm : F) (mask : N -> N)
    (st : predict_state) : Prop :=
  map ev_i (p_log st) = counters (length (p_log st)) /\
  p_i st = uint_wrap (N.of_nat (length (p_log st))) /\
  Forall (gated mask) (p_log st) /\
  p_total st = replay_predict m start norm (p_log st).

(** One lane of lines 241-249: gradient, accumulator, weight step. *)
Definition lane_grad (lam kv w_self w_other : F) : F := lam [*] w_self [+] kv [*] w_other.
Definition lane_acc (acc g : F) : F := acc [+] g [*] g.
Definition lane_step (e w acc' g : F) : F := w [-] e [*] (frsqrt acc' [*] g).





(** Two models with the same hyperparameters, weights and accumulators. *)
Definition same_model (m m' : ffm_model) : Prop :=
  eta m' = eta m /\ lambda m' = lambda m /\
  max_b_field m' = max_b_field m /\ min_a_field m' = min_a_field m /\
  bias_w m' = bias_w m /\ bias_wg m' = bias_wg m /\
  (forall off, weights m' off = weights m off) /\
  (forall off, linear_weights m' off = linear_weights m off).

End Model.

Arguments m256 F : clear implicits.
Arguments ffm_feature F : clear implicits.
Arguments ffm_model F : clear implicits.

(** ** Implementations of the arithmetic *)

(** IEEE 754 binary32, round to nearest even.  The result of
    [_mm256_rsqrt_ps] depends on the processor: it is a parameter. *)
Definition b32_prec : Z := 24.
Definition b32_emax : Z := 128.

Definition binary32_ops (rsqrt : spec_float -> spec_float) : FloatOps spec_float := {|
  fzero := S754_zero false;
  fone := SFone b32_prec b32_emax;
  fadd := SFadd b32_prec b32_emax;
  fsub := SFsub b32_prec b32_emax;
  fmul := SFmul b32_prec b32_emax;
  fdiv := SFdiv b32_prec b32_emax;
  fsqrt := SFsqrt b32_prec b32_emax;
  frsqrt := rsqrt;
  of_count := fun n => binary_normalize b32_prec b32_emax (Z.of_N n) 0 false
|}.

(** A definite reciprocal square root for the runs that need one: the
    quotient of 1 by the rounded square root, which is within the error
    bound of the instruction. *)
Definition rsqrt_by_division (x : spec_float) : spec_float :=
  SFdiv b32_prec b32_emax (SFone b32_prec b32_emax) (SFsqrt b32_prec b32_emax x).

(** A binary32 number [m * 2^e] given by an integer mantissa. *)
Definition b32 (m e : Z) : spec_float := binary_normalize b32_prec b32_emax m e false.

(** ** Further reference definitions *)

(** All the pairs of positions [(a, b)] with [b < a < n]: [a] ascending,
    then [b] ascending. *)
Definition all_pairs (n : nat) : list (nat * nat) :=
  flat_map (fun a => map (fun b => (a, b)) (seq 0 a)) (seq 0 n).

(** The number of unordered pairs of [n] features. *)
Definition pair_count (n : nat) : nat := n * (n - 1) / 2.

(** Two masks agree on the first [n] values of the pair counter. *)
Definition masks_agree (n : nat) (mask mask' : N -> N) : Prop :=
  forall k, (k < n)%nat ->
    test_mask_bit mask (uint_wrap (N.of_nat k)) =
    test_mask_bit mask' (uint_wrap (N.of_nat k)).

(** Two models that [predict] cannot tell apart: same field bounds, same
    bias weight, same linear weights and same latent weights (the lanes
    below [n_dim_aligned] of every block); accumulators, [eta] and
    [lambda] are free. *)
Definition same_forward {F : Type} (m m' : ffm_model F) : Prop :=
  max_b_field m' = max_b_field m /\ min_a_field m' = min_a_field m /\
  bias_w m' = bias_w m /\
  (forall idx, linear_weights m' (idx * 2) = linear_weights m (idx * 2)) /\
  (forall k t, t < n_dim_aligned ->
     weights m' (k * field_stride + t) = weights m (k * field_stride + t)).

(** A binary32 value that is a number (not an infinity, not NaN), and
    one that is a positive number or plus infinity. *)
Definition b32_finite (x : spec_float) : bool :=
  match x with
  | S754_zero _ | S754_finite _ _ _ => true
  | S754_infinity _ | S754_nan => false
  end.

Definition b32_positive (x : spec_float) : bool :=
  match x with
  | S754_finite false _ _ | S754_infinity false => true
  | _ => false
  end.

(** A zero of either sign; a value by which a zero can be divided with a
    zero for result (anything but a zero and NaN); a value in its
    binary32 representation (canonical mantissa, exponent in range). *)
Definition b32_is_zero (x : spec_float) : bool :=
  match x with S754_zero _ => true | _ => false end.

Definition b32_divisor (x : spec_float) : bool :=
  match x with S754_finite _ _ _ | S754_infinity _ => true | _ => false end.

Definition b32_valid (x : spec_float) : bool := valid_binary b32_prec b32_emax x.

Definition b32_emin : Z := emin b32_prec b32_emax.

(** [new] is [old], up to a negative zero having become a positive one. *)
Definition b32_unchanged (old new : spec_float) : Prop :=
  new = old \/ (old = S754_zero true /\ new = S754_zero false).

(** The weight step as the specification words it, with a division by
    the square root: [w - eta * grad / sqrt acc]. *)
Definition adagrad_step {F : Type} {ops : FloatOps F} (e w acc g : F) : F :=
  (w [-] e [*] g [/] fsqrt acc)%ffm.

(** The same with the quotient taken first: [w - eta * (grad / sqrt acc)]. *)
Definition adagrad_step' {F : Type} {ops : FloatOps F} (e w acc g : F) : F :=
  (w [-] e [*] (g [/] fsqrt acc))%ffm.

(** A binary32 state on which a zero gradient is a zero step: [eta] and
    the weights that enter a gradient are finite; the accumulators are
    positive, those of the linear table and of the bias representable,
    those of the blocks with a finite reciprocal square root estimate. *)
Definition regular_state (rsqrt : spec_float -> spec_float)
    (m : ffm_model spec_float) : Prop :=
  b32_finite (eta m) = true /\
  (b32_positive (bias_wg m) = true /\ b32_valid (bias_wg m) = true) /\
  (forall idx,
     b32_finite (linear_weights m (idx * 2)) = true /\
     b32_positive (linear_weights m (idx * 2 + 1)) = true /\
     b32_valid (linear_weights m (idx * 2 + 1)) = true) /\
  (forall k t, t < n_dim_aligned ->
     b32_finite (weights m (k * field_stride + t)) = true /\
     b32_positive (weights m (k * field_stride + n_dim_aligned + t)) = true /\
     b32_finite (rsqrt (weights m (k * field_stride + n_dim_aligned + t))) = true).

(** An input with finite values and a norm other than zero and NaN. *)
Definition regular_input (start : list (ffm_feature spec_float))
    (norm : spec_float) : Prop :=
  b32_divisor norm = true /\
  Forall (fun f => b32_finite (value f) = true) start.



(** The hashed id of [fa] is the hashed id of exactly one feature of the
    list. *)
Definition occurs_once {F : Type} {hb : HashBits} (fa : ffm_feature F)
    (start : list (ffm_feature F)) : Prop :=
  length (filter (fun f => hashed_index f =? hashed_index fa) start) = 1%nat.

(** ** Concrete inputs *)

Definition example_hash_bits : HashBits := 20.

(** The combined index of a feature: [(field << hash_bits) | hash]. *)
Definition pack (field hash : N) : N := N.lor (N.shiftl field example_hash_bits) hash.

Definition clear_mask : N -> N := fun _ => 0.
Definition full_mask : N -> N := fun _ => N.ones 64.

(** Binary32 constants. *)
Definition b32_zero : spec_float := S754_zero false.
Definition b32_one : spec_float := b32 1 0.
Definition b32_two : spec_float := b32 2 0.
Definition b32_three : spec_float := b32 3 0.

(** The scalar state of a freshly constructed unrestricted model with
    [eta = 1] and [lambda = 0]: zero bias and linear weights, unit
    accumulators; the latent weights are set to 1/4. *)
Definition fresh_b32 : ffm_model spec_float := {|
  eta := b32_one;
  lambda := b32_zero;
  max_b_field := n_fields;
  min_a_field := 0;
  bias_w := b32_zero;
  bias_wg := b32_one;
  weights := fun off => if off mod field_stride <? n_dim then b32 1 (-2)
                        else if off mod field_stride <? n_dim_aligned then b32_zero
                        else b32_one;
  linear_weights := fun off => if N.even off then b32_zero else b32_one
|}.

Definition feature_5_b32 : ffm_feature spec_float :=
  {| index := pack 0 5; value := b32_one |}.
Definition feature_9_b32 : ffm_feature spec_float :=
  {| index := pack 1 9; value := b32_two |}.

(** The arithmetic of the runs that need a definite reciprocal square root. *)
Definition run_ops : FloatOps spec_float := binary32_ops rsqrt_by_division.

(** Two features of fields 3 and 7. *)
Definition low_features_b32 : list (ffm_feature spec_float) :=
  [ {| index := pack 3 5; value := b32_one |}; {| index := pack 7 9; value := b32_two |} ].

(** A restricted model and five features with fields 12, 25, 15, 3, 11. *)
Definition restricted_b32 : ffm_model spec_float := {|
  eta := b32_one;
  lambda := b32_zero;
  max_b_field := 19;
  min_a_field := 10;
  bias_w := b32_zero;
  bias_wg := b32_one;
  weights := weights fresh_b32;
  linear_weights := linear_weights fresh_b32
|}.

Definition five_features_b32 : list (ffm_feature spec_float) :=
  map (fun fh => {| index := pack (fst fh) (snd fh); value := b32_one |})
      [(12, 1); (25, 2); (15, 3); (3, 4); (11, 5)].

(** Bits 0 and 2 set. *)
Definition mask_101 : N -> N := fun k => if k =? 0 then 5 else 0.

(** The fresh model with other step sizes and accumulators. *)
Definition fresh_b32_retuned : ffm_model spec_float := {|
  eta := b32_two;
  lambda := b32_one;
  max_b_field := n_fields;
  min_a_field := 0;
  bias_w := b32_zero;
  bias_wg := b32_three;
  weights := fun off => if off mod field_stride <? n_dim_aligned
                        then weights fresh_b32 off else b32_three;
  linear_weights := fun off => if N.even off then b32_zero else b32_two
|}.

(** The fresh model with negative latent weights, lane 0 of block(9, 0)
    holding a negative zero. *)
Definition negative_b32 : ffm_model spec_float := {|
  eta := b32_one;
  lambda := b32_zero;
  max_b_field := n_fields;
  min_a_field := 0;
  bias_w := b32_zero;
  bias_wg := b32_one;
  weights := fun off => if off =? block_offset 9 0 then S754_zero true
                        else if off mod field_stride <? n_dim then b32 (-1) (-2)
                        else if off mod field_stride <? n_dim_aligned then b32_zero
                        else b32_one;
  linear_weights := linear_weights fresh_b32
|}.

(** A feature of field 25, above the restricted bound on inner fields. *)
Definition feature_far_b32 : ffm_feature spec_float :=
  {| index := pack 25 2; value := b32_one |}.

(** A mask with bit 0 set and nothing else. *)
Definition mask_1 : N -> N := fun k => if k =? 0 then 1 else 0.

(** * Properties that hold for every arithmetic *)

Section KernelFacts.

Context {F : Type} {ops : FloatOps F} {hb : HashBits}.
Local Open Scope ffm_scope.

Local Abbreviation feature := (ffm_feature F).
Local Abbreviation model := (ffm_model F).

(** ** The lane loop runs twice, at [d = 0] and [d = 8] *)

Lemma over_dims_unfold (A : Type) (body : N -> A -> A) (s : A) :
  over_dims body s = body 8 (body 0 s).
Proof. reflexivity. Qed.

(** ** The linear term of [predict] *)

Lemma predict_outer_linear (m : model) (start : list feature) (linear_norm norm : F)
    (mask : N -> N) (rest : list feature) :
  forall (a : nat) (linear_total : F) (st : predict_state),
    fst (predict_outer m start linear_norm norm mask a rest linear_total st) =
    fold_left
      (fun acc f => acc [+] value f [*] linear_weights m (hashed_index f * 2) [/] linear_norm)
      rest linear_total.
Proof.
  induction rest as [|fa rest IH]; intros a linear_total st; simpl.
  - reflexivity.
  - destruct (field_of fa <? min_a_field m); apply IH.
Qed.

Lemma predict_loop_linear (m : model) (start : list feature) (norm : F) (mask : N -> N) :
  fst (predict_loop m start norm mask) = linear_term m start.
Proof. unfold predict_loop. rewrite predict_outer_linear. reflexivity. Qed.

Lemma predict_as_sum (m : model) (start : list feature) (norm : F) (mask : N -> N) :
  predict m start norm mask =
    sum (p_total (snd (predict_loop m start norm mask))) [+] linear_term m start.
Proof.
  unfold predict. rewrite <- (predict_loop_linear m start norm mask).
  destruct (predict_loop m start norm mask) as [lt st]. reflexivity.
Qed.

(** C8: whatever the fields, the norm and the mask, the linear total of
    [predict] is the sum, over all the features of the list in order, of
    [value * linear_weights[(index & ffm_hash_mask) * 2]] divided by the
    number of features converted to float; [predict] returns the lane sum
    plus this total. *)
Theorem predict_linear_term (m : model) (start : list feature) (norm : F) (mask : N -> N) :
  fst (predict_loop m start norm mask) =
    fold_left
      (fun acc f =>
         acc [+] value f [*] linear_weights m (N.land (index f) ffm_hash_mask * 2)
                   [/] of_count (N.of_nat (length start)))
      start fzero
  /\ predict m start norm mask =
       sum (p_total (snd (predict_loop m start norm mask)))
       [+] fst (predict_loop m start norm mask).
Proof.
  split.
  - apply predict_loop_linear.
  - rewrite predict_loop_linear. apply predict_as_sum.
Qed.

(** ** The bias step of [update] *)

(** C7: [update] leaves in the bias accumulator the old accumulator plus
    [kappa] (not its square), and in the bias weight the old weight minus
    [eta * kappa / sqrt] of the new accumulator. *)
Theorem update_bias (m : model) (start : list feature) (norm kappa : F) (mask : N -> N) :
  bias_wg (update m start norm kappa mask) = bias_wg m [+] kappa /\
  bias_w (update m start norm kappa mask) =
    bias_w m [-] eta m [*] kappa [/] fsqrt (bias_wg (update m start norm kappa mask)).
Proof. split; reflexivity. Qed.

(** ** Masks and field bounds that leave the accumulator alone *)

Lemma predict_inner_zero_mask (m : model) (fa : feature) (a : nat) (norm : F)
    (mask : N -> N) (fbs : list feature) :
  zero_mask mask ->
  forall (b : nat) (st : predict_state),
    p_total (predict_inner m fa a norm mask fbs b st) = p_total st.
Proof.
  intros Hz. induction fbs as [|fb fbs IH]; intros b st; simpl.
  - reflexivity.
  - destruct (max_b_field m <? field_of fb); [reflexivity|].
    rewrite (Hz (p_i st)). simpl. rewrite IH. reflexivity.
Qed.

Lemma predict_outer_zero_mask (m : model) (start : list feature) (linear_norm norm : F)
    (mask : N -> N) (rest : list feature) :
  zero_mask mask ->
  forall (a : nat) (linear_total : F) (st : predict_state),
    p_total (snd (predict_outer m start linear_norm norm mask a rest linear_total st)) =
    p_total st.
Proof.
  intros Hz. induction rest as [|fa rest IH]; intros a linear_total st; simpl.
  - reflexivity.
  - destruct (field_of fa <? min_a_field m); rewrite IH.
    + reflexivity.
    + apply predict_inner_zero_mask, Hz.
Qed.

(** Under an all-zero mask the score is the sum of eight lanes that each
    hold the bias, plus the linear term. *)
Lemma predict_zero_mask (m : model) (start : list feature) (norm : F) (mask : N -> N) :
  zero_mask mask ->
  predict m start norm mask = sum (_mm256_set1_ps (bias_w m)) [+] linear_term m start.
Proof.
  intros Hz. rewrite predict_as_sum.
  unfold predict_loop. rewrite predict_outer_zero_mask by exact Hz. reflexivity.
Qed.

Lemma predict_outer_low_fields (m : model) (start : list feature) (linear_norm norm : F)
    (mask : N -> N) (rest : list feature) :
  Forall (fun f => field_of f < min_a_field m) rest ->
  forall (a : nat) (linear_total : F) (st : predict_state),
    snd (predict_outer m start linear_norm norm mask a rest linear_total st) = st.
Proof.
  induction 1 as [|fa rest Hfa _ IH]; intros a linear_total st; simpl.
  - reflexivity.
  - apply N.ltb_lt in Hfa. rewrite Hfa. apply IH.
Qed.

(** C6: in restricted mode ([min_a_field = 10], [max_b_field = 19]), when
    every feature has a field below 10, [predict] tests no pair (the
    trace is empty and the pair counter stays 0), the accumulator still
    holds the broadcast bias, and the score is the same for all masks and
    norms. *)
Theorem predict_restricted_low_fields (m : model) (start : list feature)
    (norm : F) (mask : N -> N) :
  min_a_field m = 10%N -> max_b_field m = 19%N ->
  Forall (fun f => field_of f < 10) start ->
  snd (predict_loop m start norm mask) =
    {| p_i := 0; p_total := _mm256_set1_ps (bias_w m); p_log := [] |}
  /\ forall (norm' : F) (mask' : N -> N),
       predict m start norm' mask' = predict m start norm mask.
Proof.
  intros Hmin _ Hlow.
  assert (L : forall n k, snd (predict_loop m start n k) =
            {| p_i := 0; p_total := _mm256_set1_ps (bias_w m); p_log := [] |}).
  { intros n k. unfold predict_loop. apply predict_outer_low_fields.
    rewrite Hmin. exact Hlow. }
  split; [apply L|].
  intros norm' mask'.
  rewrite !predict_as_sum, !L. reflexivity.
Qed.

(** ** Lockstep of the two enumerations *)

Lemma inner_lockstep (m : model) (fa : feature) (a : nat) (norm kappa : F)
    (mask : N -> N) (fbs : list feature) :
  forall (b : nat) (pst : predict_state) (ust : update_state),
    p_i pst = u_i ust -> p_log pst = u_log ust ->
    p_i (predict_inner m fa a norm mask fbs b pst) =
      u_i (update_inner m fa a norm kappa mask fbs b ust) /\
    p_log (predict_inner m fa a norm mask fbs b pst) =
      u_log (update_inner m fa a norm kappa mask fbs b ust).
Proof.
  induction fbs as [|fb fbs IH]; intros b pst ust Hi Hl; simpl.
  - split; assumption.
  - destruct (max_b_field m <? field_of fb); [split; assumption|].
    rewrite <- Hi.
    destruct (test_mask_bit mask (p_i pst) =? 0);
      apply IH; simpl; rewrite <- ?Hi, <- ?Hl; reflexivity.
Qed.

Lemma outer_lockstep (m : model) (start : list feature) (linear_norm norm kappa : F)
    (mask : N -> N) (rest : list feature) :
  forall (a : nat) (linear_total : F) (pst : predict_state) (ust : update_state),
    p_i pst = u_i ust -> p_log pst = u_log ust ->
    p_i (snd (predict_outer m start linear_norm norm mask a rest linear_total pst)) =
      u_i (update_outer m start linear_norm norm kappa mask a rest ust) /\
    p_log (snd (predict_outer m start linear_norm norm mask a rest linear_total pst)) =
      u_log (update_outer m start linear_norm norm kappa mask a rest ust).
Proof.
  induction rest as [|fa rest IH]; intros a linear_total pst ust Hi Hl; simpl.
  - split; assumption.
  - destruct (field_of fa <? min_a_field m).
    + apply IH; assumption.
    + apply IH; apply inner_lockstep; assumption.
Qed.

(** ** The counter and the gating bit along the trace *)

Lemma test_mask_bit_cases (mask : N -> N) (i : N) :
  test_mask_bit mask i = 0 \/ test_mask_bit mask i = 1.
Proof.
  unfold test_mask_bit.
  generalize (N.shiftr (mask (N.shiftr i 6)) (N.land i 63)). intros x.
  replace (N.land x 1) with (x mod 2) by (symmetry; apply (N.land_ones x 1)).
  assert (H : x mod 2 < 2) by (apply N.mod_lt; discriminate).
  revert H. generalize (x mod 2). intros r H. lia.
Qed.

Lemma uint_wrap_succ (n : nat) :
  uint_wrap (uint_wrap (N.of_nat n) + 1) = uint_wrap (N.of_nat (S n)).
Proof.
  unfold uint_wrap. rewrite N.Div0.add_mod_idemp_l. f_equal. lia.
Qed.

Lemma counters_snoc (n : nat) :
  counters (S n) = counters n ++ [uint_wrap (N.of_nat n)].
Proof. unfold counters. rewrite seq_S, map_app. reflexivity. Qed.

Lemma replay_predict_snoc (m : model) (start : list feature) (norm : F)
    (log : list event) (e : event) :
  replay_predict m start norm (log ++ [e]) =
    if ev_applied e
    then predict_pair m (nth (ev_a e) start (default_feature (F:=F)))
           (nth (ev_b e) start default_feature) norm (replay_predict m start norm log)
    else replay_predict m start norm log.
Proof. unfold replay_predict. rewrite fold_left_app. reflexivity. Qed.

Lemma predict_inner_inv (m : model) (start : list feature) (fa : feature) (a : nat)
    (norm : F) (mask : N -> N) (fbs : list feature) :
  nth_error start a = Some fa ->
  forall (b : nat) (st : predict_state),
    (forall j fb, nth_error fbs j = Some fb -> nth_error start (b + j) = Some fb) ->
    predict_inv m start norm mask st ->
    predict_inv m start norm mask (predict_inner m fa a norm mask fbs b st).
Proof.
  intros Ha. induction fbs as [|fb fbs IH]; intros b st Hfbs Hinv; simpl.
  - exact Hinv.
  - destruct (max_b_field m <? field_of fb); [exact Hinv|].
    assert (Hb : nth b start default_feature = fb).
    { apply nth_error_nth. rewrite <- (Nat.add_0_r b). apply Hfbs. reflexivity. }
    assert (Ha' : nth a start default_feature = fa) by (apply nth_error_nth, Ha).
    assert (Hnext : forall j fb', nth_error fbs j = Some fb' ->
                                  nth_error start (S b + j) = Some fb').
    { intros j fb' Hj. replace (S b + j)%nat with (b + S j)%nat by lia.
      apply Hfbs. exact Hj. }
    destruct Hinv as (Hc & Hi & Hg & Ht).
    destruct (test_mask_bit_cases mask (p_i st)) as [E|E]; rewrite E; simpl.
    + apply IH; [exact Hnext|]. unfold predict_inv; simpl.
      rewrite length_app, Nat.add_1_r, map_app, counters_snoc, Hc. simpl.
      repeat split.
      * rewrite Hi. reflexivity.
      * rewrite Hi. apply uint_wrap_succ.
      * apply Forall_app; split; [exact Hg|].
        constructor; [|constructor]. unfold gated; simpl. rewrite E. reflexivity.
      * rewrite replay_predict_snoc. simpl. exact Ht.
    + apply IH; [exact Hnext|]. unfold predict_inv; simpl.
      rewrite length_app, Nat.add_1_r, map_app, counters_snoc, Hc. simpl.
      repeat split.
      * rewrite Hi. reflexivity.
      * rewrite Hi. apply uint_wrap_succ.
      * apply Forall_app; split; [exact Hg|].
        constructor; [|constructor]. unfold gated; simpl. rewrite E. reflexivity.
      * rewrite replay_predict_snoc. simpl. rewrite Ha', Hb, Ht. reflexivity.
Qed.

Lemma skipn_cons_nth_error (A : Type) (l : list A) :
  forall (a : nat) (x : A) (r : list A),
    skipn a l = x :: r -> nth_error l a = Some x /\ skipn (S a) l = r.
Proof.
  induction l as [|y l IH]; intros a x r H.
  - destruct a; discriminate.
  - destruct a as [|a]; simpl in *.
    + inversion H. split; reflexivity.
    + apply IH. exact H.
Qed.

Lemma nth_error_firstn_some (A : Type) (l : list A) :
  forall (a j : nat) (x : A),
    nth_error (firstn a l) j = Some x -> nth_error l j = Some x.
Proof.
  induction l as [|y l IH]; intros a j x H.
  - destruct a; destruct j; discriminate.
  - destruct a as [|a]; [destruct j; discriminate|].
    destruct j as [|j]; simpl in *; [exact H|]. eapply IH, H.
Qed.

Lemma predict_outer_inv (m : model) (start : list feature) (linear_norm norm : F)
    (mask : N -> N) (rest : list feature) :
  forall (a : nat) (linear_total : F) (st : predict_state),
    skipn a start = rest ->
    predict_inv m start norm mask st ->
    predict_inv m start norm mask
      (snd (predict_outer m start linear_norm norm mask a rest linear_total st)).
Proof.
  induction rest as [|fa rest IH]; intros a linear_total st Hrest Hinv; simpl.
  - exact Hinv.
  - destruct (skipn_cons_nth_error _ _ _ _ _ Hrest) as [Ha Hrest'].
    destruct (field_of fa <? min_a_field m).
    + apply IH; assumption.
    + apply IH; [assumption|].
      apply predict_inner_inv; [exact Ha| |exact Hinv].
      intros j fb Hj. simpl. eapply nth_error_firstn_some, Hj.
Qed.

(** ** Which pairs are tested *)

Lemma positions_snoc (log : list event) (e : event) :
  positions (log ++ [e]) = positions log ++ [(ev_a e, ev_b e)].
Proof. unfold positions. rewrite map_app. reflexivity. Qed.

Lemma predict_inner_positions (m : model) (fa : feature) (a : nat) (norm : F)
    (mask : N -> N) (fbs : list feature) :
  forall (b : nat) (st : predict_state),
    positions (p_log (predict_inner m fa a norm mask fbs b st)) =
    positions (p_log st) ++ map (fun j => (a, j)) (seq b (scan_length (max_b_field m) fbs)).
Proof.
  induction fbs as [|fb fbs IH]; intros b st; simpl.
  - rewrite app_nil_r. reflexivity.
  - destruct (max_b_field m <? field_of fb); simpl.
    + rewrite app_nil_r. reflexivity.
    + destruct (test_mask_bit mask (p_i st) =? 0);
        rewrite IH; simpl; rewrite positions_snoc, <- app_assoc; reflexivity.
Qed.

Lemma predict_outer_positions (m : model) (start : list feature) (linear_norm norm : F)
    (mask : N -> N) (rest : list feature) :
  forall (a : nat) (linear_total : F) (st : predict_state),
    skipn a start = rest ->
    positions (p_log (snd (predict_outer m start linear_norm norm mask a rest linear_total st))) =
    positions (p_log st) ++
    flat_map
      (fun a =>
         match nth_error start a with
         | Some fa =>
             if field_of fa <? min_a_field m then []
             else map (fun b => (a, b)) (seq 0 (scan_length (max_b_field m) (firstn a start)))
         | None => []
         end)
      (seq a (length rest)).
Proof.
  induction rest as [|fa rest IH]; intros a linear_total st Hrest; simpl.
  - rewrite app_nil_r. reflexivity.
  - destruct (skipn_cons_nth_error _ _ _ _ _ Hrest) as [Ha Hrest'].
    rewrite Ha. destruct (field_of fa <? min_a_field m); simpl.
    + apply IH. exact Hrest'.
    + rewrite IH by exact Hrest'.
      rewrite predict_inner_positions, <- app_assoc. reflexivity.
Qed.

(** ** The weights of [update] rebuilt from its trace *)

Lemma replay_update_snoc (m : model) (start : list feature) (norm kappa : F)
    (log : list event) (e : event) :
  replay_update m start norm kappa (log ++ [e]) =
    if ev_applied e
    then update_pair m (nth (ev_a e) start (default_feature (F:=F)))
           (nth (ev_b e) start default_feature) norm kappa
           (replay_update m start norm kappa log)
    else replay_update m start norm kappa log.
Proof. unfold replay_update. rewrite fold_left_app. reflexivity. Qed.

Lemma update_inner_replay (m : model) (start : list feature) (fa : feature) (a : nat)
    (norm kappa : F) (mask : N -> N) (fbs : list feature) :
  nth_error start a = Some fa ->
  forall (b : nat) (st : update_state),
    (forall j fb, nth_error fbs j = Some fb -> nth_error start (b + j) = Some fb) ->
    u_weights st = replay_update m start norm kappa (u_log st) ->
    u_weights (update_inner m fa a norm kappa mask fbs b st) =
    replay_update m start norm kappa (u_log (update_inner m fa a norm kappa mask fbs b st)).
Proof.
  intros Ha. induction fbs as [|fb fbs IH]; intros b st Hfbs Hw; simpl.
  - exact Hw.
  - destruct (max_b_field m <? field_of fb); [exact Hw|].
    assert (Hb : nth b start default_feature = fb).
    { apply nth_error_nth. rewrite <- (Nat.add_0_r b). apply Hfbs. reflexivity. }
    assert (Ha' : nth a start default_feature = fa) by (apply nth_error_nth, Ha).
    assert (Hnext : forall j fb', nth_error fbs j = Some fb' ->
                                  nth_error start (S b + j) = Some fb').
    { intros j fb' Hj. replace (S b + j)%nat with (b + S j)%nat by lia.
      apply Hfbs. exact Hj. }
    destruct (test_mask_bit mask (u_i st) =? 0);
      apply IH; try exact Hnext; simpl; rewrite replay_update_snoc; simpl.
    + exact Hw.
    + rewrite Ha', Hb, Hw. reflexivity.
Qed.

Lemma update_outer_replay (m : model) (start : list feature) (linear_norm norm kappa : F)
    (mask : N -> N) (rest : list feature) :
  forall (a : nat) (st : update_state),
    skipn a start = rest ->
    u_weights st = replay_update m start norm kappa (u_log st) ->
    u_weights (update_outer m start linear_norm norm kappa mask a rest st) =
    replay_update m start norm kappa
      (u_log (update_outer m start linear_norm norm kappa mask a rest st)).
Proof.
  induction rest as [|fa rest IH]; intros a st Hrest Hw; simpl.
  - exact Hw.
  - destruct (skipn_cons_nth_error _ _ _ _ _ Hrest) as [Ha Hrest'].
    destruct (field_of fa <? min_a_field m).
    + apply IH; assumption.
    + apply IH; [assumption|].
      apply update_inner_replay; [exact Ha| |exact Hw].
      intros j fb Hj. simpl. eapply nth_error_firstn_some, Hj.
Qed.

(** C2: [predict] and [update] leave the same trace and the same final
    pair counter.  The trace lists exactly the pairs of the
    specification's enumeration, in its order (a scan cut by the field
    bound, or skipped because the field of [a] is below [min_a_field],
    leaves no event and does not move the counter); the counter values
    along the trace are 0, 1, 2, ... in 32-bit arithmetic, one per event
    whether the pair was applied or dropped; every event is gated by the
    mask bit numbered by its counter value; and the accumulator of
    [predict] and the weights of [update] are obtained from the trace by
    running the pair arithmetic on the applied events only. *)
Theorem predict_update_lockstep (m : model) (start : list feature) (norm kappa : F)
    (mask : N -> N) :
  let pst := snd (predict_loop m start norm mask) in
  let ust := update_loop m start norm kappa mask in
  u_log ust = p_log pst /\
  u_i ust = p_i pst /\
  positions (p_log pst) = tested_pairs m start /\
  map ev_i (p_log pst) = counters (length (p_log pst)) /\
  p_i pst = uint_wrap (N.of_nat (length (p_log pst))) /\
  Forall (gated mask) (p_log pst) /\
  p_total pst = replay_predict m start norm (p_log pst) /\
  weights (update m start norm kappa mask) = replay_update m start norm kappa (u_log ust).
Proof.
  intros pst ust.
  assert (Hlock : p_i pst = u_i ust /\ p_log pst = u_log ust).
  { apply outer_lockstep; reflexivity. }
  assert (Hinv : predict_inv m start norm mask pst).
  { apply predict_outer_inv; [reflexivity|].
    repeat split; constructor. }
  destruct Hlock as [Hi Hl]. destruct Hinv as (Hc & Hn & Hg & Ht).
  repeat split; auto.
  - unfold pst, predict_loop. rewrite predict_outer_positions by reflexivity.
    reflexivity.
  - apply update_outer_replay; reflexivity.
Qed.

(** ** Registers and memory *)

Lemma lane_lanewise2 (f : F -> F -> F) (x y : m256 F) (j : N) :
  lane (lanewise2 f x y) j = f (lane x j) (lane y j).
Proof.
  destruct j as [|p]; [reflexivity|].
  do 3 (destruct p as [p|p|]; try reflexivity).
Qed.

Lemma lane_lanewise1 (f : F -> F) (x : m256 F) (j : N) :
  lane (lanewise1 f x) j = f (lane x j).
Proof.
  destruct j as [|p]; [reflexivity|].
  do 3 (destruct p as [p|p|]; try reflexivity).
Qed.

Lemma lane_set1 (x : F) (j : N) : lane (_mm256_set1_ps x) j = x.
Proof.
  destruct j as [|p]; [reflexivity|].
  do 3 (destruct p as [p|p|]; try reflexivity).
Qed.

Lemma lane_load (mem : N -> F) (p j : N) :
  j < 8 -> lane (_mm256_load_ps mem p) j = mem (p + j).
Proof.
  intros Hj.
  assert (H : j = 0 \/ j = 1 \/ j = 2 \/ j = 3 \/ j = 4 \/ j = 5 \/ j = 6 \/ j = 7) by lia.
  destruct H as [->|[->|[->|[->|[->|[->|[->| ->]]]]]]]; simpl; rewrite ?N.add_0_r; reflexivity.
Qed.

Lemma store_hit (p : N) (v : m256 F) (mem : N -> F) (j : N) :
  j < 8 -> _mm256_store_ps p v mem (p + j) = lane v j.
Proof.
  intros Hj. unfold _mm256_store_ps.
  replace ((p <=? p + j) && (p + j <? p + 8)) with true.
  - f_equal. lia.
  - symmetry. apply andb_true_intro. split; [apply N.leb_le|apply N.ltb_lt]; lia.
Qed.

Lemma store_miss (p : N) (v : m256 F) (mem : N -> F) (off : N) :
  off < p \/ p + 8 <= off -> _mm256_store_ps p v mem off = mem off.
Proof.
  intros H. unfold _mm256_store_ps.
  destruct (N.leb_spec p off); destruct (N.ltb_spec off (p + 8)); simpl;
    try reflexivity; lia.
Qed.

Lemma store_hit' (p : N) (v : m256 F) (mem : N -> F) (off : N) :
  p <= off < p + 8 -> _mm256_store_ps p v mem off = lane v (off - p).
Proof.
  intros H. replace off with (p + (off - p)) at 1 by lia.
  apply store_hit. lia.
Qed.

Ltac peel_stores :=
  repeat first [ rewrite store_hit' by lia | rewrite store_miss by lia ].

Ltac read_lanes j :=
  repeat match goal with
         | |- context [lane _ ?x] => progress replace x with j by lia
         end;
  unfold xmm_grad, _mm256_add_ps, _mm256_sub_ps, _mm256_mul_ps, _mm256_rsqrt_ps;
  repeat first [ rewrite lane_lanewise2 | rewrite lane_lanewise1
               | rewrite lane_set1 | rewrite lane_load by assumption ].

Lemma update_lanes_hit (E L K : F) (ka kb d j : N) (w : N -> F) :
  d <= 8 -> j < 8 ->
  let wa := ka * field_stride in
  let wb := kb * field_stride in
  let w' := update_lanes (_mm256_set1_ps E) (_mm256_set1_ps L) (_mm256_set1_ps K) wa wb d w in
  let ga := lane_grad L K (w (wa + d + j)) (w (wb + d + j)) in
  let gb := lane_grad L K (w (wb + d + j)) (w (wa + d + j)) in
  w' (wa + n_dim_aligned + d + j) = lane_acc (w (wa + n_dim_aligned + d + j)) ga /\
  w' (wb + n_dim_aligned + d + j) = lane_acc (w (wb + n_dim_aligned + d + j)) gb /\
  w' (wa + d + j) =
    lane_step E (w (wa + d + j)) (lane_acc (w (wa + n_dim_aligned + d + j)) ga) ga /\
  w' (wb + d + j) =
    lane_step E (w (wb + d + j)) (lane_acc (w (wb + n_dim_aligned + d + j)) gb) gb.
Proof.
  intros Hd Hj. change field_stride with 32. change n_dim_aligned with 16.
  cbv beta zeta delta [update_lanes]. change n_dim_aligned with 16.
  unfold lane_grad, lane_acc, lane_step.
  destruct (N.eq_dec ka kb) as [->|Hne];
    repeat split; peel_stores; read_lanes j; reflexivity.
Qed.

Lemma update_lanes_miss (xe xl xk : m256 F) (wa wb d off : N) (w : N -> F) :
  (off < wa + d \/ wa + d + 8 <= off) ->
  (off < wb + d \/ wb + d + 8 <= off) ->
  (off < wa + n_dim_aligned + d \/ wa + n_dim_aligned + d + 8 <= off) ->
  (off < wb + n_dim_aligned + d \/ wb + n_dim_aligned + d + 8 <= off) ->
  update_lanes xe xl xk wa wb d w off = w off.
Proof.
  intros H1 H2 H3 H4. cbv beta zeta delta [update_lanes].
  rewrite !store_miss by assumption. reflexivity.
Qed.

Lemma update_lanes_at (E L K : F) (ka kb d t : N) (w : N -> F) :
  d <= 8 -> d <= t < d + 8 ->
  let wa := ka * field_stride in
  let wb := kb * field_stride in
  let w' := update_lanes (_mm256_set1_ps E) (_mm256_set1_ps L) (_mm256_set1_ps K) wa wb d w in
  let ga := lane_grad L K (w (wa + t)) (w (wb + t)) in
  let gb := lane_grad L K (w (wb + t)) (w (wa + t)) in
  w' (wa + n_dim_aligned + t) = lane_acc (w (wa + n_dim_aligned + t)) ga /\
  w' (wb + n_dim_aligned + t) = lane_acc (w (wb + n_dim_aligned + t)) gb /\
  w' (wa + t) = lane_step E (w (wa + t)) (lane_acc (w (wa + n_dim_aligned + t)) ga) ga /\
  w' (wb + t) = lane_step E (w (wb + t)) (lane_acc (w (wb + n_dim_aligned + t)) gb) gb.
Proof.
  intros Hd Ht.
  pose proof (update_lanes_hit E L K ka kb d (t - d) w Hd) as H.
  cbv zeta in *.
  replace (ka * field_stride + d + (t - d)) with (ka * field_stride + t) in H by lia.
  replace (kb * field_stride + d + (t - d)) with (kb * field_stride + t) in H by lia.
  replace (ka * field_stride + n_dim_aligned + d + (t - d))
    with (ka * field_stride + n_dim_aligned + t) in H by lia.
  replace (kb * field_stride + n_dim_aligned + d + (t - d))
    with (kb * field_stride + n_dim_aligned + t) in H by lia.
  apply H. lia.
Qed.

Lemma block_offset_aligned (idx fld : N) :
  block_offset idx fld = (idx * n_fields + fld) * field_stride.
Proof.
  unfold block_offset. change index_stride with (n_fields * field_stride). lia.
Qed.

Lemma update_pair_lanes (m : model) (fa fb : feature) (norm kappa : F)
    (w : N -> F) (t : N) :
  t < n_dim_aligned ->
  let wa := block_offset (hashed_index fa) (field_of fb) in
  let wb := block_offset (hashed_index fb) (field_of fa) in
  let kv := kappa [*] value fa [*] value fb [/] norm in
  let ga := lane_grad (lambda m) kv (w (wa + t)) (w (wb + t)) in
  let gb := lane_grad (lambda m) kv (w (wb + t)) (w (wa + t)) in
  let w' := update_pair m fa fb norm kappa w in
  w' (wa + n_dim_aligned + t) = lane_acc (w (wa + n_dim_aligned + t)) ga /\
  w' (wb + n_dim_aligned + t) = lane_acc (w (wb + n_dim_aligned + t)) gb /\
  w' (wa + t) = lane_step (eta m) (w (wa + t)) (lane_acc (w (wa + n_dim_aligned + t)) ga) ga /\
  w' (wb + t) = lane_step (eta m) (w (wb + t)) (lane_acc (w (wb + n_dim_aligned + t)) gb) gb.
Proof.
  intros Ht. cbv zeta. rewrite !block_offset_aligned.
  unfold update_pair. rewrite over_dims_unfold.
  fold (block_offset (hashed_index fa) (field_of fb)).
  fold (block_offset (hashed_index fb) (field_of fa)).
  rewrite !block_offset_aligned.
  set (ka := hashed_index fa * n_fields + field_of fb).
  set (kb := hashed_index fb * n_fields + field_of fa).
  set (E := eta m). set (L := lambda m).
  set (K := kappa [*] value fa [*] value fb [/] norm).
  change n_dim_aligned with 16 in Ht.
  destruct (N.lt_ge_cases t 8) as [Hlo|Hhi].
  - assert (H := update_lanes_at E L K ka kb 0 t w ltac:(lia) ltac:(lia)).
    cbv zeta in H.
    change n_dim_aligned with 16 in *. change field_stride with 32 in *.
    assert (M : forall w1 off,
               (off = ka * 32 + t \/ off = kb * 32 + t \/
                off = ka * 32 + 16 + t \/ off = kb * 32 + 16 + t) ->
               update_lanes (_mm256_set1_ps E) (_mm256_set1_ps L) (_mm256_set1_ps K)
                 (ka * 32) (kb * 32) 8 w1 off = w1 off).
    { intros w1 off Hoff.
      apply update_lanes_miss; change n_dim_aligned with 16; lia. }
    rewrite !M by lia. exact H.
  - set (w1 := update_lanes (_mm256_set1_ps E) (_mm256_set1_ps L) (_mm256_set1_ps K)
                 (ka * field_stride) (kb * field_stride) 0 w).
    assert (H := update_lanes_at E L K ka kb 8 t w1 ltac:(lia) ltac:(lia)).
    cbv zeta in H.
    change n_dim_aligned with 16 in *. change field_stride with 32 in *.
    assert (M : forall off,
               (off = ka * 32 + t \/ off = kb * 32 + t \/
                off = ka * 32 + 16 + t \/ off = kb * 32 + 16 + t) ->
               w1 off = w off).
    { intros off Hoff. unfold w1.
      apply update_lanes_miss; change n_dim_aligned with 16; lia. }
    rewrite !M in H by lia. exact H.
Qed.

Lemma update_pair_frame (m : model) (fa fb : feature) (norm kappa : F)
    (w : N -> F) (off : N) :
  let wa := block_offset (hashed_index fa) (field_of fb) in
  let wb := block_offset (hashed_index fb) (field_of fa) in
  (off < wa \/ wa + field_stride <= off) ->
  (off < wb \/ wb + field_stride <= off) ->
  update_pair m fa fb norm kappa w off = w off.
Proof.
  cbv zeta. intros Ha Hb. unfold update_pair. rewrite over_dims_unfold.
  fold (block_offset (hashed_index fa) (field_of fb)).
  fold (block_offset (hashed_index fb) (field_of fa)).
  change field_stride with 32 in *.
  rewrite update_lanes_miss by (change n_dim_aligned with 16; lia).
  rewrite update_lanes_miss by (change n_dim_aligned with 16; lia).
  reflexivity.
Qed.

(** ** One iteration of the inner loop of [update] *)

Lemma update_inner_applied (m : model) (fa fb : feature) (a b : nat) (norm kappa : F)
    (mask : N -> N) (fbs : list feature) (st : update_state) :
  field_of fb <= max_b_field m ->
  test_mask_bit mask (u_i st) = 1 ->
  update_inner m fa a norm kappa mask (fb :: fbs) b st =
  update_inner m fa a norm kappa mask fbs (S b)
    {| u_i := uint_wrap (u_i st + 1);
       u_weights := update_pair m fa fb norm kappa (u_weights st);
       u_linear_weights := u_linear_weights st;
       u_log := u_log st ++ [{| ev_a := a; ev_b := b; ev_i := u_i st;
                                ev_applied := true |}] |}.
Proof.
  intros Hf Hbit. simpl.
  replace (max_b_field m <? field_of fb) with false
    by (symmetry; apply N.ltb_ge; exact Hf).
  rewrite Hbit. reflexivity.
Qed.

(** C3: an inner-loop iteration of [update] whose candidate passes the
    field bound and whose mask bit is 1 replaces the weights by
    [update_pair]; for every lane [t < n_dim] of both blocks, the
    accumulator becomes the old one plus the square of the gradient, and
    the weight becomes the old one minus [eta * (rsqrt acc' * gradient)],
    where [rsqrt] is the estimate of [_mm256_rsqrt_ps] at the new
    accumulator [acc']: the step multiplies by the estimate, nothing is
    divided by a square root.  Each gradient, [lambda * w_self + kappa *
    value_a * value_b / norm * w_other], reads the weights as they were
    before the pair. *)
Theorem update_pair_step (m : model) (fa fb : feature) (a b : nat) (norm kappa : F)
    (mask : N -> N) (fbs : list feature) (st : update_state) (t : N) :
  field_of fb <= max_b_field m ->
  test_mask_bit mask (u_i st) = 1 ->
  t < n_dim ->
  let w := u_weights st in
  let wa := block_offset (hashed_index fa) (field_of fb) in
  let wb := block_offset (hashed_index fb) (field_of fa) in
  let wga := wa + n_dim_aligned in
  let wgb := wb + n_dim_aligned in
  let kv := kappa [*] value fa [*] value fb [/] norm in
  let ga := lambda m [*] w (wa + t) [+] kv [*] w (wb + t) in
  let gb := lambda m [*] w (wb + t) [+] kv [*] w (wa + t) in
  let w' := update_pair m fa fb norm kappa w in
  update_inner m fa a norm kappa mask (fb :: fbs) b st =
    update_inner m fa a norm kappa mask fbs (S b)
      {| u_i := uint_wrap (u_i st + 1);
         u_weights := w';
         u_linear_weights := u_linear_weights st;
         u_log := u_log st ++ [{| ev_a := a; ev_b := b; ev_i := u_i st;
                                  ev_applied := true |}] |} /\
  w' (wga + t) = w (wga + t) [+] ga [*] ga /\
  w' (wa + t) = w (wa + t) [-] eta m [*] (frsqrt (w' (wga + t)) [*] ga) /\
  w' (wgb + t) = w (wgb + t) [+] gb [*] gb /\
  w' (wb + t) = w (wb + t) [-] eta m [*] (frsqrt (w' (wgb + t)) [*] gb).
Proof.
  intros Hf Hbit Ht. cbv zeta.
  assert (Ht' : t < n_dim_aligned)
    by (revert Ht; change n_dim with 14; change n_dim_aligned with 16; lia).
  destruct (update_pair_lanes m fa fb norm kappa (u_weights st) t Ht')
    as (Hga & Hgb & Hwa & Hwb).
  unfold lane_acc, lane_step, lane_grad in *.
  split; [apply update_inner_applied; assumption|].
  rewrite Hga, Hgb, Hwa, Hwb. repeat split.
Qed.

(** C10: when [fa] and [fb] decode to the same feature id and the same
    field, the blocks [wa] and [wb] of the pair are one block; the two
    gradient registers are computed from the same loads and are equal;
    after the pair arithmetic every lane of the block has received one
    step: its accumulator is the old one plus the square of that gradient
    (once), its weight the old one minus [eta * (rsqrt(new accumulator) *
    gradient)]; nothing outside the block changes. *)
Theorem update_pair_shared_block (m : model) (fa fb : feature) (norm kappa : F)
    (w : N -> F) :
  hashed_index fa = hashed_index fb ->
  field_of fa = field_of fb ->
  let blk := block_offset (hashed_index fa) (field_of fa) in
  let wa := block_offset (hashed_index fa) (field_of fb) in
  let wb := block_offset (hashed_index fb) (field_of fa) in
  let kv := kappa [*] value fa [*] value fb [/] norm in
  let w' := update_pair m fa fb norm kappa w in
  wa = blk /\ wb = blk /\
  (forall (xl xk : m256 F) (mem : N -> F) (d : N),
     xmm_grad xl xk (_mm256_load_ps mem (wa + d)) (_mm256_load_ps mem (wb + d)) =
     xmm_grad xl xk (_mm256_load_ps mem (wb + d)) (_mm256_load_ps mem (wa + d))) /\
  (forall t, t < n_dim_aligned ->
     let g := lane_grad (lambda m) kv (w (blk + t)) (w (blk + t)) in
     w' (blk + n_dim_aligned + t) = w (blk + n_dim_aligned + t) [+] g [*] g /\
     w' (blk + t) =
       w (blk + t) [-] eta m [*] (frsqrt (w (blk + n_dim_aligned + t) [+] g [*] g) [*] g)) /\
  (forall off, off < blk \/ blk + field_stride <= off -> w' off = w off).
Proof.
  intros Hidx Hfld. cbv zeta. rewrite <- Hidx, <- Hfld.
  repeat split; try reflexivity.
  - pose proof (update_pair_lanes m fa fb norm kappa w t H) as L.
    cbv zeta in L. rewrite <- Hidx, <- Hfld in L. apply L.
  - pose proof (update_pair_lanes m fa fb norm kappa w t H) as L.
    cbv zeta in L. rewrite <- Hidx, <- Hfld in L. apply L.
  - intros off Hoff.
    pose proof (update_pair_frame m fa fb norm kappa w off) as Fr.
    cbv zeta in Fr. rewrite <- Hidx, <- Hfld in Fr. apply Fr; exact Hoff.
Qed.

(** ** A list of two features *)

Lemma predict_pair_unfold (m : model) (fa fb : feature) (norm : F) (acc : m256 F) :
  let wa := block_offset (hashed_index fa) (field_of fb) in
  let wb := block_offset (hashed_index fb) (field_of fa) in
  let xmm_val := _mm256_set1_ps (value fa [*] value fb [/] norm) in
  predict_pair m fa fb norm acc =
  _mm256_add_ps
    (_mm256_add_ps acc
       (_mm256_mul_ps
          (_mm256_mul_ps (_mm256_load_ps (weights m) wa) (_mm256_load_ps (weights m) wb))
          xmm_val))
    (_mm256_mul_ps
       (_mm256_mul_ps (_mm256_load_ps (weights m) (wa + 8))
          (_mm256_load_ps (weights m) (wb + 8)))
       xmm_val).
Proof.
  cbv zeta. unfold predict_pair. rewrite over_dims_unfold.
  unfold block_offset. rewrite !N.add_0_r. reflexivity.
Qed.

Lemma predict_loop_two (m : model) (fb fa : feature) (norm : F) (mask : N -> N) :
  min_a_field m = 0 ->
  field_of fb <= max_b_field m ->
  test_mask_bit mask 0 = 1 ->
  snd (predict_loop m [fb; fa] norm mask) =
    {| p_i := uint_wrap 1;
       p_total := predict_pair m fa fb norm (_mm256_set1_ps (bias_w m));
       p_log := [{| ev_a := 1; ev_b := 0; ev_i := 0; ev_applied := true |}] |}.
Proof.
  intros Hmin Hfb Hbit. unfold predict_loop.
  cbn [predict_outer]. rewrite Hmin.
  replace (field_of fb <? 0) with false by (symmetry; apply N.ltb_ge, N.le_0_l).
  replace (field_of fa <? 0) with false by (symmetry; apply N.ltb_ge, N.le_0_l).
  cbn [firstn predict_inner snd p_i p_total p_log].
  replace (max_b_field m <? field_of fb) with false
    by (symmetry; apply N.ltb_ge; exact Hfb).
  rewrite Hbit. reflexivity.
Qed.

Section Commutative.

Hypothesis fmul_comm : forall x y : F, x [*] y = y [*] x.

Lemma mm256_mul_ps_comm (x y : m256 F) : _mm256_mul_ps x y = _mm256_mul_ps y x.
Proof.
  unfold _mm256_mul_ps, lanewise2. f_equal; apply fmul_comm.
Qed.

(** C9: in unrestricted mode ([min_a_field = 0], [max_b_field =
    n_fields]), for two features whose fields do not exceed the bound (in
    particular every field in range) and bit 0 of the mask set, the accumulator of [predict] is the same for both orders of
    the list: the broadcast bias plus, for each of the two 8-lane steps,
    the product of the blocks [block(id0, field1)] and [block(id1,
    field0)] scaled by [value0 * value1 / norm]. *)
Theorem predict_two_features_swap (m : model) (f0 f1 : feature) (norm : F)
    (mask : N -> N) :
  min_a_field m = 0 -> max_b_field m = n_fields ->
  field_of f0 <= n_fields -> field_of f1 <= n_fields ->
  test_mask_bit mask 0 = 1 ->
  let w01 := block_offset (hashed_index f0) (field_of f1) in
  let w10 := block_offset (hashed_index f1) (field_of f0) in
  let xmm_val := _mm256_set1_ps (value f0 [*] value f1 [/] norm) in
  let total :=
    _mm256_add_ps
      (_mm256_add_ps (_mm256_set1_ps (bias_w m))
         (_mm256_mul_ps
            (_mm256_mul_ps (_mm256_load_ps (weights m) w01) (_mm256_load_ps (weights m) w10))
            xmm_val))
      (_mm256_mul_ps
         (_mm256_mul_ps (_mm256_load_ps (weights m) (w01 + 8))
            (_mm256_load_ps (weights m) (w10 + 8)))
         xmm_val) in
  p_total (snd (predict_loop m [f0; f1] norm mask)) = total /\
  p_total (snd (predict_loop m [f1; f0] norm mask)) = total.
Proof.
  intros Hmin Hmax H0 H1 Hbit. cbv zeta. split.
  - rewrite predict_loop_two by (rewrite ?Hmax; auto).
    cbn [p_total]. rewrite predict_pair_unfold. cbv zeta.
    rewrite (fmul_comm (value f1) (value f0)).
    rewrite (mm256_mul_ps_comm (_mm256_load_ps (weights m)
               (block_offset (hashed_index f1) (field_of f0)))).
    rewrite (mm256_mul_ps_comm (_mm256_load_ps (weights m)
               (block_offset (hashed_index f1) (field_of f0) + 8))).
    reflexivity.
  - rewrite predict_loop_two by (rewrite ?Hmax; auto).
    cbn [p_total]. rewrite predict_pair_unfold. reflexivity.
Qed.

End Commutative.

(** ** Properties of the stores preserved along [update] *)

Lemma In_firstn (A : Type) (a : nat) (l : list A) (x : A) :
  In x (firstn a l) -> In x l.
Proof.
  intros H. rewrite <- (firstn_skipn a l). apply in_or_app. left. exact H.
Qed.

Section Preserved.

Variables (m : model) (start : list feature) (linear_norm norm kappa : F) (mask : N -> N).
Variable P : (N -> F) -> Prop.
Variable Q : (N -> F) -> Prop.

Hypothesis pair_preserves :
  forall fa fb w, In fa start -> In fb start -> P w -> P (update_pair m fa fb norm kappa w).
Hypothesis linear_preserves :
  forall fa lw, In fa start -> Q lw -> Q (update_linear m fa linear_norm kappa lw).

Lemma update_inner_preserves (fa : feature) (a : nat) (fbs : list feature) :
  In fa start -> incl fbs start ->
  forall (b : nat) (st : update_state),
    P (u_weights st) /\ Q (u_linear_weights st) ->
    P (u_weights (update_inner m fa a norm kappa mask fbs b st)) /\
    Q (u_linear_weights (update_inner m fa a norm kappa mask fbs b st)).
Proof.
  intros Ha. induction fbs as [|fb fbs IH]; intros Hincl b st [Hp Hq]; simpl.
  - split; assumption.
  - destruct (max_b_field m <? field_of fb); [split; assumption|].
    assert (Hfb : In fb start) by (apply Hincl; left; reflexivity).
    assert (Hrest : incl fbs start) by (intros x Hx; apply Hincl; right; exact Hx).
    destruct (test_mask_bit mask (u_i st) =? 0); apply IH; try exact Hrest; simpl;
      split; auto.
Qed.

Lemma update_outer_preserves (rest : list feature) :
  incl rest start ->
  forall (a : nat) (st : update_state),
    P (u_weights st) /\ Q (u_linear_weights st) ->
    P (u_weights (update_outer m start linear_norm norm kappa mask a rest st)) /\
    Q (u_linear_weights (update_outer m start linear_norm norm kappa mask a rest st)).
Proof.
  induction rest as [|fa rest IH]; intros Hincl a st [Hp Hq]; simpl.
  - split; assumption.
  - assert (Hfa : In fa start) by (apply Hincl; left; reflexivity).
    assert (Hrest : incl rest start) by (intros x Hx; apply Hincl; right; exact Hx).
    destruct (field_of fa <? min_a_field m).
    + apply IH; [exact Hrest|]. simpl. split; auto.
    + apply IH; [exact Hrest|].
      apply update_inner_preserves; [exact Hfa| |simpl; split; auto].
      intros x Hx. eapply In_firstn, Hx.
Qed.

End Preserved.

Lemma update_preserves (m : model) (start : list feature) (norm kappa : F)
    (mask : N -> N) (P Q : (N -> F) -> Prop) :
  (forall fa fb w, In fa start -> In fb start -> P w ->
                   P (update_pair m fa fb norm kappa w)) ->
  (forall fa lw, In fa start -> Q lw ->
                 Q (update_linear m fa (of_count (N.of_nat (length start))) kappa lw)) ->
  P (weights m) -> Q (linear_weights m) ->
  P (weights (update m start norm kappa mask)) /\
  Q (linear_weights (update m start norm kappa mask)).
Proof.
  intros Hp Hq Hp0 Hq0. unfold update, update_loop. cbn [weights linear_weights].
  apply update_outer_preserves; auto using incl_refl.
Qed.

(** Every offset lies in the weight half or in the accumulator half of
    one of the two blocks of a pair, or outside both blocks. *)
Lemma offset_cases (wa wb off : N) :
  (exists t, t < n_dim_aligned /\ (off = wa + t \/ off = wa + n_dim_aligned + t \/
                                   off = wb + t \/ off = wb + n_dim_aligned + t)) \/
  ((off < wa \/ wa + field_stride <= off) /\ (off < wb \/ wb + field_stride <= off)).
Proof.
  change n_dim_aligned with 16. change field_stride with 32.
  destruct (N.lt_ge_cases off wa) as [Ha|Ha];
  destruct (N.lt_ge_cases off wb) as [Hb|Hb].
  - right. lia.
  - destruct (N.lt_ge_cases off (wb + 32)) as [Hb'|Hb']; [|right; lia].
    left. destruct (N.lt_ge_cases off (wb + 16)).
    + exists (off - wb). lia.
    + exists (off - wb - 16). lia.
  - destruct (N.lt_ge_cases off (wa + 32)) as [Ha'|Ha']; [|right; lia].
    left. destruct (N.lt_ge_cases off (wa + 16)).
    + exists (off - wa). lia.
    + exists (off - wa - 16). lia.
  - destruct (N.lt_ge_cases off (wa + 32)) as [Ha'|Ha'].
    + left. destruct (N.lt_ge_cases off (wa + 16)).
      * exists (off - wa). lia.
      * exists (off - wa - 16). lia.
    + destruct (N.lt_ge_cases off (wb + 32)) as [Hb'|Hb']; [|right; lia].
      left. destruct (N.lt_ge_cases off (wb + 16)).
      * exists (off - wb). lia.
      * exists (off - wb - 16). lia.
Qed.

(** ** Construction *)

Lemma for_loop_inv (A : Type) (I : N -> A -> Prop) (from bound : N)
    (body : N -> A -> A) :
  (forall k s, from <= k < bound -> I k s -> I (k + 1) (body k s)) ->
  forall (fuel : nat) (d : N) (s : A),
    from <= d <= bound -> (N.to_nat (bound - d) <= fuel)%nat -> I d s ->
    I bound (for_loop fuel d bound 1 body s).
Proof.
  intros Hstep. induction fuel as [|fuel IH]; intros d s Hd Hfuel Hi; simpl.
  - replace bound with d by lia. exact Hi.
  - destruct (N.ltb_spec d bound) as [Hlt|Hge].
    + apply IH; [lia|lia|]. apply Hstep; [lia|assumption].
    + replace bound with d by lia. exact Hi.
Qed.

Lemma store_same (p : N) (v : F) (mem : N -> F) : store p v mem p = v.
Proof. unfold store. rewrite N.eqb_refl. reflexivity. Qed.

Lemma store_other (p : N) (v : F) (mem : N -> F) (off : N) :
  off <> p -> store p v mem off = mem off.
Proof.
  intros H. unfold store. destruct (N.eqb_spec off p); [contradiction|reflexivity].
Qed.




(** The field bounds are chosen by the constructor and kept by [update]. *)
Lemma ffm_model_ctor_bounds (draws : N -> F) (alloc_w alloc_l : option (N -> F))
    (restricted : bool) (eta0 lambda0 : F) (m : model) :
  ffm_model_ctor draws alloc_w alloc_l restricted eta0 lambda0 = Some m ->
  (restricted = true -> min_a_field m = 10 /\ max_b_field m = 19) /\
  (restricted = false -> min_a_field m = 0 /\ max_b_field m = n_fields).
Proof.
  intros Hm. unfold ffm_model_ctor, malloc_aligned_float in Hm.
  destruct alloc_w as [raw_w|]; [|discriminate].
  destruct alloc_l as [raw_l|]; [|discriminate].
  inversion Hm; subst m; clear Hm. cbn [min_a_field max_b_field].
  split; intros ->; split; reflexivity.
Qed.

Lemma update_bounds (m : model) (start : list feature) (norm kappa : F) (mask : N -> N) :
  min_a_field (update m start norm kappa mask) = min_a_field m /\
  max_b_field (update m start norm kappa mask) = max_b_field m.
Proof. split; reflexivity. Qed.


Lemma hashed_index_lt (f : feature) : hashed_index f < n_features.
Proof.
  unfold hashed_index, ffm_hash_mask, n_features.
  rewrite N.shiftl_1_l, N.sub_1_r, <- N.ones_equiv, N.land_ones.
  apply N.mod_lt, N.pow_nonzero. discriminate.
Qed.

End KernelFacts.

(** * Runs on concrete inputs *)

Section Binary32Runs.

Variable rsqrt : spec_float -> spec_float.

(** C1: run in binary32, whatever [_mm256_rsqrt_ps] returns.  A fresh
    model is updated once on the example [(field 0, hash 5, 1.0)] with
    [kappa = 3]; its bias weight becomes -1.5.  On the example
    [(field 1, hash 9, 2.0)] with an all-zero mask the linear term is 0
    and the bias plus the linear term is -1.5, but [predict] returns
    -12: the bias is counted once per lane of the accumulator. *)
Theorem predict_zero_mask_counts_bias_per_lane :
  let m1 := update (ops:=binary32_ops rsqrt) (hb:=example_hash_bits) fresh_b32
              [feature_5_b32] b32_one b32_three clear_mask in
  bias_w m1 = b32 (-3) (-1) /\
  linear_term (ops:=binary32_ops rsqrt) (hb:=example_hash_bits) m1 [feature_9_b32] = b32_zero /\
  fadd (FloatOps:=binary32_ops rsqrt) (bias_w m1)
    (linear_term (ops:=binary32_ops rsqrt) (hb:=example_hash_bits) m1 [feature_9_b32]) =
    b32 (-3) (-1) /\
  predict (ops:=binary32_ops rsqrt) (hb:=example_hash_bits) m1 [feature_9_b32] b32_one clear_mask =
    b32 (-12) 0.
Proof. vm_compute. repeat split. Qed.

(** The trace of both kernels in restricted mode on five features with
    fields 12, 25, 15, 3, 11 and a mask with 0 and 2 set. *)
Example restricted_trace :
  p_log (snd (predict_loop (ops:=binary32_ops rsqrt) (hb:=example_hash_bits) restricted_b32
                five_features_b32 b32_one mask_101)) =
    [ {| ev_a := 1; ev_b := 0; ev_i := 0; ev_applied := true |};
      {| ev_a := 2; ev_b := 0; ev_i := 1; ev_applied := false |};
      {| ev_a := 4; ev_b := 0; ev_i := 2; ev_applied := true |} ] /\
  u_log (update_loop (ops:=binary32_ops rsqrt) (hb:=example_hash_bits) restricted_b32
           five_features_b32 b32_one b32_one mask_101) =
    [ {| ev_a := 1; ev_b := 0; ev_i := 0; ev_applied := true |};
      {| ev_a := 2; ev_b := 0; ev_i := 1; ev_applied := false |};
      {| ev_a := 4; ev_b := 0; ev_i := 2; ev_applied := true |} ].
Proof. vm_compute. split; reflexivity. Qed.

(** The scenario of the specification: features (field 0, hash 5, 1.0)
    and (field 1, hash 9, 2.0), norm 1, bit 0 of the mask set, on the
    fresh model, whose latent weights are all 1/4: the score is
    [2 * 14 / 16 = 1.75]. *)
Example predict_two_features_b32 :
  predict (ops:=binary32_ops rsqrt) (hb:=example_hash_bits) fresh_b32
    [feature_5_b32; feature_9_b32] b32_one full_mask = b32 7 (-2).
Proof. vm_compute. reflexivity. Qed.

End Binary32Runs.

(** After an update in binary32 on the same two features the padding
    lanes of both blocks of the pair still hold zero, and lane 0 of
    each block has moved. *)
Example padding_after_update_b32 :
  let m1 := update (ops:=run_ops) (hb:=example_hash_bits) fresh_b32
              [feature_5_b32; feature_9_b32] b32_one b32_three full_mask in
  let wa := block_offset 9 0 in
  let wb := block_offset 5 1 in
  weights m1 (wa + 14) = b32_zero /\ weights m1 (wa + 15) = b32_zero /\
  weights m1 (wb + 14) = b32_zero /\ weights m1 (wb + 15) = b32_zero /\
  weights m1 wa <> weights fresh_b32 wa /\ weights m1 wb <> weights fresh_b32 wb.
Proof. vm_compute. repeat split; discriminate. Qed.

Section Binary32Witnesses.

Local Existing Instance run_ops.
Local Existing Instance example_hash_bits.
Local Open Scope ffm_scope.

(** Binary32 multiplication is commutative. *)
Lemma SFmul_comm (prec emax : Z) (x y : spec_float) :
  SFmul prec emax x y = SFmul prec emax y x.
Proof.
  destruct x as [sx|sx| |sx mx ex]; destruct y as [sy|sy| |sy my ey]; simpl;
    try reflexivity; rewrite (xorb_comm sx sy); try reflexivity.
  rewrite (Pos.mul_comm mx my), (Z.add_comm ex ey). reflexivity.
Qed.

(** [predict_restricted_low_fields] on two features of fields 3 and 7. *)
Lemma predict_restricted_low_fields_witness :
  snd (predict_loop restricted_b32 low_features_b32 b32_one full_mask) =
    {| p_i := 0; p_total := _mm256_set1_ps b32_zero; p_log := [] |}
  /\ forall (norm' : spec_float) (mask' : N -> N),
       predict restricted_b32 low_features_b32 norm' mask' =
       predict restricted_b32 low_features_b32 b32_one full_mask.
Proof.
  apply (predict_restricted_low_fields restricted_b32 low_features_b32 b32_one full_mask).
  - reflexivity.
  - reflexivity.
  - repeat constructor.
Defined.

(** [predict_two_features_swap] on the features (field 0, hash 5, 1.0)
    and (field 1, hash 9, 2.0) in binary32. *)
Lemma predict_two_features_swap_witness :
  p_total (snd (predict_loop fresh_b32 [feature_5_b32; feature_9_b32] b32_one full_mask)) =
  p_total (snd (predict_loop fresh_b32 [feature_9_b32; feature_5_b32] b32_one full_mask)).
Proof.
  destruct (predict_two_features_swap (ops:=run_ops) (hb:=example_hash_bits)
              (SFmul_comm b32_prec b32_emax)
              fresh_b32 feature_5_b32 feature_9_b32 b32_one full_mask eq_refl eq_refl)
    as [H1 H2].
  - vm_compute. discriminate.
  - vm_compute. discriminate.
  - reflexivity.
  - rewrite H1, H2. reflexivity.
Defined.

(** [update_pair_shared_block] on a feature paired with a second
    occurrence of itself, lane 0 of the block. *)
Lemma update_pair_shared_block_witness :
  let m := fresh_b32 in
  let f := feature_9_b32 in
  let blk := block_offset (hashed_index f) (field_of f) in
  let w := weights m in
  let w' := update_pair m f f b32_one b32_three w in
  let g := lane_grad (lambda m) (b32_three [*] value f [*] value f [/] b32_one)
             (w (blk + 0)%N) (w (blk + 0)%N) in
  w' (blk + n_dim_aligned + 0)%N = w (blk + n_dim_aligned + 0)%N [+] g [*] g /\
  w' (blk + 0)%N =
    w (blk + 0)%N [-] eta m [*] (frsqrt (w (blk + n_dim_aligned + 0)%N [+] g [*] g) [*] g).
Proof.
  cbv zeta.
  destruct (update_pair_shared_block (ops:=run_ops) (hb:=example_hash_bits)
              fresh_b32 feature_9_b32 feature_9_b32 b32_one b32_three
              (weights fresh_b32) eq_refl eq_refl)
    as (_ & _ & _ & H & _).
  apply (H 0%N). reflexivity.
Defined.

End Binary32Witnesses.

(** * Further properties of the code *)

(** ** The mask bit *)

(** X1: [test_mask_bit mask i] is bit [i mod 64] of word [i / 64] of the
    mask, as a number: 1 when the bit is set and 0 when it is clear. *)
Theorem test_mask_bit_testbit (mask : N -> N) (i : N) :
  test_mask_bit mask i = N.b2n (N.testbit (mask (i / 64)) (i mod 64)).
Proof.
  unfold test_mask_bit.
  rewrite (N.shiftr_div_pow2 i 6).
  change 63 with (N.ones 6). rewrite (N.land_ones i 6).
  change (2 ^ 6) with 64.
  rewrite N.testbit_spec'.
  rewrite N.shiftr_div_pow2.
  change 1 with (N.ones 1) at 1. rewrite N.land_ones. reflexivity.
Qed.

Section ConstructionFacts.

Context {F : Type} {ops : FloatOps F} {hb : HashBits}.
Local Open Scope ffm_scope.

(** ** The initialisation loops *)

Lemma range_true (p n off : N) :
  p <= off < p + n -> (p <=? off) && (off <? p + n) = true.
Proof.
  intros H. apply andb_true_intro. split; [apply N.leb_le|apply N.ltb_lt]; lia.
Qed.

Lemma range_false (p n off : N) :
  off < p \/ p + n <= off -> (p <=? off) && (off <? p + n) = false.
Proof.
  intros H. destruct (N.leb_spec p off); destruct (N.ltb_spec off (p + n));
    simpl; try reflexivity; lia.
Qed.

(** A loop that writes [v] at the pointer and advances it. *)
Lemma fill_loop_spec (body : init_state (F:=F) -> init_state) (c : N) (v : N -> F)
    (lo hi : N) (fuel : nat) (s0 : init_state) :
  (forall s, iw_ptr (body s) = iw_ptr s + 1) ->
  (forall s, iw_drawn (body s) = iw_drawn s + c) ->
  (forall s, iw_mem (body s) = store (iw_ptr s) (v (iw_drawn s)) (iw_mem s)) ->
  lo <= hi -> (N.to_nat (hi - lo) <= fuel)%nat ->
  iw_ptr (for_loop fuel lo hi 1 (fun _ s => body s) s0) = iw_ptr s0 + (hi - lo) /\
  iw_drawn (for_loop fuel lo hi 1 (fun _ s => body s) s0) =
    iw_drawn s0 + c * (hi - lo) /\
  forall off,
    iw_mem (for_loop fuel lo hi 1 (fun _ s => body s) s0) off =
      if (iw_ptr s0 <=? off) && (off <? iw_ptr s0 + (hi - lo))
      then v (iw_drawn s0 + c * (off - iw_ptr s0))
      else iw_mem s0 off.
Proof.
  intros Hptr Hdrawn Hmem Hle Hfuel.
  set (I := fun (d : N) (s : init_state) =>
              iw_ptr s = iw_ptr s0 + (d - lo) /\
              iw_drawn s = iw_drawn s0 + c * (d - lo) /\
              forall off,
                iw_mem s off =
                  if (iw_ptr s0 <=? off) && (off <? iw_ptr s0 + (d - lo))
                  then v (iw_drawn s0 + c * (off - iw_ptr s0))
                  else iw_mem s0 off).
  apply (for_loop_inv _ I lo); try lia.
  - intros k s Hk (Hp & Hd & Hm). unfold I. rewrite Hptr, Hdrawn, Hp, Hd.
    repeat split; [lia|nia|].
    intros off. rewrite Hmem, Hp, Hd. unfold store.
    destruct (N.eqb_spec off (iw_ptr s0 + (k - lo))) as [->|Hne].
    + replace ((iw_ptr s0 <=? iw_ptr s0 + (k - lo)) &&
               (iw_ptr s0 + (k - lo) <? iw_ptr s0 + (k + 1 - lo))) with true.
      * f_equal. f_equal. f_equal. lia.
      * symmetry. apply andb_true_intro.
        split; [apply N.leb_le|apply N.ltb_lt]; lia.
    + rewrite Hm.
      destruct (N.leb_spec (iw_ptr s0) off);
        destruct (N.ltb_spec off (iw_ptr s0 + (k - lo)));
        destruct (N.ltb_spec off (iw_ptr s0 + (k + 1 - lo)));
        simpl; try reflexivity; lia.
  - unfold I. rewrite N.sub_diag, N.mul_0_r, !N.add_0_r. repeat split.
    intros off.
    destruct (N.leb_spec (iw_ptr s0) off); destruct (N.ltb_spec off (iw_ptr s0));
      simpl; try reflexivity; lia.
Qed.

(** One block: the pointer moves by [field_stride], [n_dim] values are
    drawn, and the block holds the draws, then zeros, then ones. *)
Lemma init_weights_block_content (draws : N -> F) (s0 : init_state) :
  let s1 := init_weights_block draws s0 in
  iw_ptr s1 = iw_ptr s0 + field_stride /\
  iw_drawn s1 = iw_drawn s0 + n_dim /\
  forall off,
    iw_mem s1 off =
      if off <? iw_ptr s0 then iw_mem s0 off
      else if off <? iw_ptr s0 + n_dim then draws (iw_drawn s0 + (off - iw_ptr s0))
      else if off <? iw_ptr s0 + n_dim_aligned then fzero
      else if off <? iw_ptr s0 + field_stride then fone
      else iw_mem s0 off.
Proof.
  cbv zeta. unfold init_weights_block.
  change field_stride with 32. change n_dim with 14. change n_dim_aligned with 16.
  change (2 * 16) with 32.
  lazymatch goal with
  | |- context [for_loop (N.to_nat 14) 0 14 1 ?body s0] =>
      destruct (fill_loop_spec (fun s => body 0 s) 1 draws 0 14 (N.to_nat 14) s0
                  (fun _ => eq_refl) (fun _ => eq_refl) (fun _ => eq_refl))
        as (P1 & D1 & M1); [lia|vm_compute; lia|];
      set (s1 := for_loop (N.to_nat 14) 0 14 1 body s0) in *
  end.
  lazymatch goal with
  | |- context [for_loop (N.to_nat 16) 14 16 1 ?body s1] =>
      destruct (fill_loop_spec (fun s => body 0 s) 0 (fun _ => fzero) 14 16
                  (N.to_nat 16) s1
                  (fun _ => eq_refl) (fun s => eq_sym (N.add_0_r (iw_drawn s)))
                  (fun _ => eq_refl))
        as (P2 & D2 & M2); [lia|vm_compute; lia|];
      set (s2 := for_loop (N.to_nat 16) 14 16 1 body s1) in *
  end.
  lazymatch goal with
  | |- context [for_loop (N.to_nat 32) 16 32 1 ?body s2] =>
      destruct (fill_loop_spec (fun s => body 0 s) 0 (fun _ => fone) 16 32
                  (N.to_nat 32) s2
                  (fun _ => eq_refl) (fun s => eq_sym (N.add_0_r (iw_drawn s)))
                  (fun _ => eq_refl))
        as (P3 & D3 & M3); [lia|vm_compute; lia|];
      set (s3 := for_loop (N.to_nat 32) 16 32 1 body s2) in *
  end.
  clearbody s1 s2 s3.
  change (14 - 0) with 14 in *. change (16 - 14) with 2 in *.
  change (32 - 16) with 16 in *.
  repeat split.
  - lia.
  - lia.
  - intros off. rewrite M3, M2, M1, P2, P1.
    destruct (N.lt_ge_cases off (iw_ptr s0));
      destruct (N.lt_ge_cases off (iw_ptr s0 + 14));
      destruct (N.lt_ge_cases off (iw_ptr s0 + 16));
      destruct (N.lt_ge_cases off (iw_ptr s0 + 32)); try lia;
      repeat first [ rewrite range_true by lia | rewrite range_false by lia ];
      repeat first [ rewrite (proj2 (N.ltb_lt _ _)) by lia
                   | rewrite (proj2 (N.ltb_ge _ _)) by lia ];
      try reflexivity.
    f_equal. lia.
Qed.

Lemma init_weights_spec (draws : N -> F) (mem : N -> F) (n : N) :
  let w := init_weights draws mem n in
  (forall k d, k < n -> d < n_dim -> w (k * field_stride + d) = draws (k * n_dim + d)) /\
  (forall k d, k < n -> n_dim <= d < n_dim_aligned -> w (k * field_stride + d) = fzero) /\
  (forall k d, k < n -> n_dim_aligned <= d < field_stride ->
               w (k * field_stride + d) = fone) /\
  (forall off, n * field_stride <= off -> w off = mem off).
Proof.
  cbv zeta. unfold init_weights.
  set (lanes := fun (k d : N) =>
                  if d <? n_dim then draws (k * n_dim + d)
                  else if d <? n_dim_aligned then fzero else fone).
  set (I := fun (k : N) (s : init_state) =>
              iw_ptr s = k * field_stride /\
              iw_drawn s = k * n_dim /\
              (forall k' d, k' < k -> d < field_stride ->
                            iw_mem s (k' * field_stride + d) = lanes k' d) /\
              (forall off, k * field_stride <= off -> iw_mem s off = mem off)).
  assert (H : I n (for_loop (N.to_nat n) 0 n 1 (fun _ s => init_weights_block draws s)
                     {| iw_ptr := 0; iw_drawn := 0; iw_mem := mem |})).
  { apply (for_loop_inv _ I 0); try lia.
    - intros k s Hk (Hp & Hd & Hin & Hout).
      destruct (init_weights_block_content draws s) as (Hp' & Hd' & Hm').
      unfold I. rewrite Hp', Hd', Hp, Hd.
      change field_stride with 32 in *. change n_dim with 14 in *.
      change n_dim_aligned with 16 in *.
      repeat split; [lia|lia| |].
      + intros k' d Hk' Hdlt. rewrite Hm', Hp, Hd.
        destruct (N.eq_dec k' k) as [->|Hne].
        * replace (k * 32 + d <? k * 32) with false by (symmetry; apply N.ltb_ge; lia).
          unfold lanes. change n_dim with 14. change n_dim_aligned with 16.
          replace (k * 32 + d <? k * 32 + 14) with (d <? 14)
            by (destruct (N.ltb_spec d 14); symmetry;
                [apply N.ltb_lt|apply N.ltb_ge]; lia).
          replace (k * 32 + d <? k * 32 + 16) with (d <? 16)
            by (destruct (N.ltb_spec d 16); symmetry;
                [apply N.ltb_lt|apply N.ltb_ge]; lia).
          replace (k * 32 + d <? k * 32 + 32) with true
            by (symmetry; apply N.ltb_lt; lia).
          replace (k * 32 + d - k * 32) with d by lia. reflexivity.
        * replace (k' * 32 + d <? k * 32) with true by (symmetry; apply N.ltb_lt; nia).
          apply Hin; lia.
      + intros off Hoff. rewrite Hm', Hp.
        replace (off <? k * 32) with false by (symmetry; apply N.ltb_ge; lia).
        replace (off <? k * 32 + 14) with false by (symmetry; apply N.ltb_ge; lia).
        replace (off <? k * 32 + 16) with false by (symmetry; apply N.ltb_ge; lia).
        replace (off <? k * 32 + 32) with false by (symmetry; apply N.ltb_ge; lia).
        apply Hout. lia.
    - unfold I. cbn [iw_ptr iw_drawn iw_mem]. repeat split; try lia. }
  destruct H as (_ & _ & Hin & Hout).
  change field_stride with 32 in *. change n_dim with 14 in *.
  change n_dim_aligned with 16 in *.
  repeat split.
  - intros k d Hk Hd. rewrite Hin by lia. unfold lanes. change n_dim with 14.
    replace (d <? 14) with true by (symmetry; apply N.ltb_lt; lia). reflexivity.
  - intros k d Hk Hd. rewrite Hin by lia. unfold lanes. change n_dim with 14.
    change n_dim_aligned with 16.
    replace (d <? 14) with false by (symmetry; apply N.ltb_ge; lia).
    replace (d <? 16) with true by (symmetry; apply N.ltb_lt; lia). reflexivity.
  - intros k d Hk Hd. rewrite Hin by lia. unfold lanes. change n_dim with 14.
    change n_dim_aligned with 16.
    replace (d <? 14) with false by (symmetry; apply N.ltb_ge; lia).
    replace (d <? 16) with false by (symmetry; apply N.ltb_ge; lia). reflexivity.
  - exact Hout.
Qed.

(** X2: [init_weights] on [n] blocks writes, in block [k < n], the draws
    numbered [k * n_dim + d] in the lanes [d < n_dim], in the order they
    are drawn, zero in the padding lanes, and one in all [n_dim_aligned]
    accumulator lanes; it writes nothing at or past offset
    [n * field_stride]. *)
Theorem init_weights_content (draws : N -> F) (mem : N -> F) (n : N) :
  let w := init_weights draws mem n in
  (forall k d, k < n -> d < n_dim -> w (k * field_stride + d) = draws (k * n_dim + d)) /\
  (forall k d, k < n -> n_dim <= d < n_dim_aligned -> w (k * field_stride + d) = fzero) /\
  (forall k d, k < n -> n_dim_aligned <= d < field_stride ->
               w (k * field_stride + d) = fone) /\
  (forall off, n * field_stride <= off -> w off = mem off).
Proof. exact (init_weights_spec draws mem n). Qed.

Lemma init_linear_weights_spec (mem : N -> F) (n : N) :
  let lw := init_linear_weights mem n in
  (forall idx, idx < n -> lw (idx * 2) = fzero /\ lw (idx * 2 + 1) = fone) /\
  (forall off, n * 2 <= off -> lw off = mem off).
Proof.
  cbv zeta. unfold init_linear_weights.
  set (I := fun (k : N) (s : N * (N -> F)) =>
              fst s = k * 2 /\
              (forall idx, idx < k ->
                           snd s (idx * 2) = fzero /\ snd s (idx * 2 + 1) = fone) /\
              (forall off, k * 2 <= off -> snd s off = mem off)).
  match goal with
  | |- context [for_loop (N.to_nat n) 0 n 1 ?body (0, mem)] =>
      assert (H : I n (for_loop (N.to_nat n) 0 n 1 body (0, mem)))
  end.
  { apply (for_loop_inv _ I 0); try lia.
    - intros k [w lw] Hk (Hw & Hin & Hout). cbn [fst snd] in *. subst w.
      unfold I. cbn [fst snd]. repeat split.
      + lia.
      + destruct (N.eq_dec idx k) as [->|Hne].
        * rewrite store_other by lia. apply store_same.
        * rewrite !store_other by lia. apply Hin. lia.
      + destruct (N.eq_dec idx k) as [->|Hne].
        * apply store_same.
        * rewrite !store_other by lia. apply Hin. lia.
      + intros off Hoff. rewrite !store_other by lia. apply Hout. lia.
    - unfold I. cbn [fst snd]. repeat split; try lia. }
  destruct H as (_ & Hin & Hout). split; assumption.
Qed.

(** X3: [init_linear_weights] on [n] entries writes weight 0 and
    accumulator 1 for every feature id below [n], and nothing at or past
    offset [2 * n]. *)
Theorem init_linear_weights_content (mem : N -> F) (n : N) :
  let lw := init_linear_weights mem n in
  (forall idx, idx < n -> lw (idx * 2) = fzero /\ lw (idx * 2 + 1) = fone) /\
  (forall off, n * 2 <= off -> lw off = mem off).
Proof. exact (init_linear_weights_spec mem n). Qed.

(** ** The constructor *)

Lemma ffm_model_ctor_state (draws : N -> F) (alloc_w alloc_l : option (N -> F))
    (restricted : bool) (eta0 lambda0 : F) (m : ffm_model F) :
  n_features * n_fields < 2 ^ uint_bits ->
  ffm_model_ctor draws alloc_w alloc_l restricted eta0 lambda0 = Some m ->
  eta m = eta0 /\ lambda m = lambda0 /\ bias_w m = fzero /\ bias_wg m = fone /\
  (forall idx, idx < n_features ->
     linear_weights m (idx * 2) = fzero /\ linear_weights m (idx * 2 + 1) = fone) /\
  (forall k t, k < n_features * n_fields -> t < n_dim_aligned ->
     weights m (k * field_stride + n_dim_aligned + t) = fone).
Proof.
  intros Hfit Hm. unfold ffm_model_ctor, malloc_aligned_float in Hm.
  destruct alloc_w as [raw_w|]; [|discriminate].
  destruct alloc_l as [raw_l|]; [|discriminate].
  inversion Hm; subst m; clear Hm.
  cbn [eta lambda bias_w bias_wg linear_weights weights].
  assert (Hf : n_features < 2 ^ uint_bits).
  { revert Hfit. change n_fields with 30. generalize n_features. intros x. lia. }
  unfold uint_wrap. rewrite !N.mod_small by assumption.
  repeat split.
  - apply (init_linear_weights_spec raw_l n_features). assumption.
  - apply (init_linear_weights_spec raw_l n_features). assumption.
  - intros k t Hk Ht.
    destruct (init_weights_spec draws raw_w (n_features * n_fields))
      as (_ & _ & Hone & _).
    rewrite <- N.add_assoc. apply Hone; [assumption|].
    revert Ht. change n_dim_aligned with 16. change field_stride with 32. lia.
Qed.


(** X5: when the block count fits an [ffm_uint], a constructed model
    carries the given [eta] and [lambda], a zero bias with accumulator 1,
    linear weight 0 with accumulator 1 for every hashed feature id, and
    accumulator 1 in every accumulator lane of every block of the
    tensor. *)
Theorem ffm_model_ctor_fresh (draws : N -> F) (alloc_w alloc_l : option (N -> F))
    (restricted : bool) (eta0 lambda0 : F) (m : ffm_model F) :
  n_features * n_fields < 2 ^ uint_bits ->
  ffm_model_ctor draws alloc_w alloc_l restricted eta0 lambda0 = Some m ->
  eta m = eta0 /\ lambda m = lambda0 /\ bias_w m = fzero /\ bias_wg m = fone /\
  (forall idx, idx < n_features ->
     linear_weights m (idx * 2) = fzero /\ linear_weights m (idx * 2 + 1) = fone) /\
  (forall k t, k < n_features * n_fields -> t < n_dim_aligned ->
     weights m (k * field_stride + n_dim_aligned + t) = fone).
Proof. exact (ffm_model_ctor_state draws alloc_w alloc_l restricted eta0 lambda0 m). Qed.

End ConstructionFacts.

Section TraceFacts.

Context {F : Type} {ops : FloatOps F} {hb : HashBits}.
Local Open Scope ffm_scope.

Local Abbreviation feature := (ffm_feature F).
Local Abbreviation model := (ffm_model F).

(** ** How many pairs are tested *)

Lemma scan_length_le (max_b : N) (l : list feature) :
  (scan_length max_b l <= length l)%nat.
Proof.
  induction l as [|f l IH]; simpl; [lia|].
  destruct (max_b <? field_of f); simpl; lia.
Qed.

Lemma scan_length_all (max_b : N) (l : list feature) :
  Forall (fun f => field_of f <= max_b) l -> scan_length max_b l = length l.
Proof.
  induction 1 as [|f l Hf _ IH]; simpl; [reflexivity|].
  replace (max_b <? field_of f) with false by (symmetry; apply N.ltb_ge; exact Hf).
  rewrite IH. reflexivity.
Qed.

Lemma Forall_firstn_of (A : Type) (P : A -> Prop) (a : nat) (l : list A) :
  Forall P l -> Forall P (firstn a l).
Proof.
  intros H. rewrite <- (firstn_skipn a l) in H. apply Forall_app in H. apply H.
Qed.

Lemma flat_map_length_le (A B C : Type) (f : A -> list B) (g : A -> list C)
    (l : list A) :
  (forall x, In x l -> (length (f x) <= length (g x))%nat) ->
  (length (flat_map f l) <= length (flat_map g l))%nat.
Proof.
  induction l as [|x l IH]; intros H; simpl; [lia|].
  rewrite !length_app.
  assert (length (f x) <= length (g x))%nat by (apply H; left; reflexivity).
  assert (length (flat_map f l) <= length (flat_map g l))%nat
    by (apply IH; intros y Hy; apply H; right; exact Hy).
  lia.
Qed.

Lemma flat_map_ext_in (A B : Type) (f g : A -> list B) (l : list A) :
  (forall x, In x l -> f x = g x) -> flat_map f l = flat_map g l.
Proof.
  induction l as [|x l IH]; intros H; simpl; [reflexivity|].
  rewrite (H x) by (left; reflexivity).
  rewrite IH by (intros y Hy; apply H; right; exact Hy). reflexivity.
Qed.

Lemma all_pairs_succ (n : nat) :
  all_pairs (S n) = all_pairs n ++ map (fun b => (n, b)) (seq 0 n).
Proof.
  unfold all_pairs. rewrite seq_S, flat_map_app. simpl.
  rewrite app_nil_r. reflexivity.
Qed.

Lemma all_pairs_length (n : nat) : length (all_pairs n) = pair_count n.
Proof.
  unfold pair_count. induction n as [|n IH]; [reflexivity|].
  rewrite all_pairs_succ, length_app, length_map, length_seq, IH.
  replace (S n * (S n - 1))%nat with (n * (n - 1) + n * 2)%nat by nia.
  rewrite Nat.div_add by discriminate. reflexivity.
Qed.

Lemma tested_pairs_length_le (m : model) (start : list feature) :
  (length (tested_pairs m start) <= pair_count (length start))%nat.
Proof.
  rewrite <- all_pairs_length. unfold tested_pairs, all_pairs.
  apply flat_map_length_le. intros a Ha. apply in_seq in Ha.
  destruct (nth_error start a) as [fa|]; [|simpl; lia].
  destruct (field_of fa <? min_a_field m); [simpl; lia|].
  rewrite !length_map, !length_seq.
  pose proof (scan_length_le (max_b_field m) (firstn a start)) as H.
  rewrite length_firstn in H. lia.
Qed.

Lemma tested_pairs_all (m : model) (start : list feature) :
  min_a_field m = 0 ->
  Forall (fun f => field_of f <= max_b_field m) start ->
  tested_pairs m start = all_pairs (length start).
Proof.
  intros Hmin Hall. unfold tested_pairs, all_pairs.
  apply flat_map_ext_in. intros a Ha. apply in_seq in Ha.
  destruct (nth_error start a) as [fa|] eqn:E.
  - rewrite Hmin.
    replace (field_of fa <? 0) with false by (symmetry; apply N.ltb_ge, N.le_0_l).
    rewrite scan_length_all by (apply Forall_firstn_of; exact Hall).
    rewrite length_firstn. replace (Nat.min a (length start)) with a by lia.
    reflexivity.
  - apply nth_error_None in E. lia.
Qed.

Lemma predict_loop_positions (m : model) (start : list feature) (norm : F)
    (mask : N -> N) :
  positions (p_log (snd (predict_loop m start norm mask))) = tested_pairs m start.
Proof.
  unfold predict_loop. rewrite predict_outer_positions by reflexivity. reflexivity.
Qed.

Lemma update_loop_log (m : model) (start : list feature) (norm kappa : F)
    (mask : N -> N) :
  u_log (update_loop m start norm kappa mask) =
  p_log (snd (predict_loop m start norm mask)).
Proof.
  symmetry. apply outer_lockstep; reflexivity.
Qed.

Lemma update_weights_replay (m : model) (start : list feature) (norm kappa : F)
    (mask : N -> N) :
  weights (update m start norm kappa mask) =
  replay_update m start norm kappa (u_log (update_loop m start norm kappa mask)).
Proof.
  unfold update. cbn [weights]. unfold update_loop.
  apply update_outer_replay; reflexivity.
Qed.

Lemma predict_total_replay (m : model) (start : list feature) (norm : F)
    (mask : N -> N) :
  p_total (snd (predict_loop m start norm mask)) =
  replay_predict m start norm (p_log (snd (predict_loop m start norm mask))).
Proof.
  assert (Hinv : predict_inv m start norm mask (snd (predict_loop m start norm mask))).
  { apply predict_outer_inv; [reflexivity|]. repeat split; constructor. }
  apply Hinv.
Qed.

(** X6: whatever the model and the mask, [predict] and [update] test at
    most [n * (n - 1) / 2] pairs on a list of [n] features. *)
Theorem tested_pairs_bound (m : model) (start : list feature) (norm kappa : F)
    (mask : N -> N) :
  (length (p_log (snd (predict_loop m start norm mask))) <= pair_count (length start))%nat /\
  (length (u_log (update_loop m start norm kappa mask)) <= pair_count (length start))%nat.
Proof.
  rewrite update_loop_log.
  assert (H : length (p_log (snd (predict_loop m start norm mask))) =
              length (tested_pairs m start)).
  { rewrite <- (predict_loop_positions m start norm mask).
    unfold positions. rewrite length_map. reflexivity. }
  rewrite H. split; apply tested_pairs_length_le.
Qed.

(** X7: when [min_a_field] is 0 and no field exceeds [max_b_field]
    (unrestricted mode with fields in range), [predict] and [update] test
    every pair of positions [b < a] exactly once, in the order [a]
    ascending then [b] ascending: [n * (n - 1) / 2] pairs in all. *)
Theorem unrestricted_tests_all_pairs (m : model) (start : list feature)
    (norm kappa : F) (mask : N -> N) :
  min_a_field m = 0 ->
  Forall (fun f => field_of f <= max_b_field m) start ->
  positions (p_log (snd (predict_loop m start norm mask))) = all_pairs (length start) /\
  positions (u_log (update_loop m start norm kappa mask)) = all_pairs (length start) /\
  length (p_log (snd (predict_loop m start norm mask))) = pair_count (length start).
Proof.
  intros Hmin Hall. rewrite update_loop_log, predict_loop_positions.
  rewrite tested_pairs_all by assumption. repeat split.
  rewrite <- all_pairs_length, <- (tested_pairs_all m start Hmin Hall).
  rewrite <- (predict_loop_positions m start norm mask).
  unfold positions. rewrite length_map. reflexivity.
Qed.

(** ** Which pairs are tested, and where a scan stops *)

Lemma nth_error_firstn_lt (A : Type) (l : list A) :
  forall (a j : nat), (j < a)%nat -> nth_error (firstn a l) j = nth_error l j.
Proof.
  induction l as [|y l IH]; intros a j H.
  - rewrite firstn_nil. reflexivity.
  - destruct a as [|a]; [lia|]. destruct j as [|j]; simpl; [reflexivity|].
    apply IH. lia.
Qed.

Lemma scan_length_lt (max_b : N) (l : list feature) :
  forall b : nat,
    (b < scan_length max_b l)%nat <->
    (forall b', (b' <= b)%nat ->
                exists fb, nth_error l b' = Some fb /\ field_of fb <= max_b).
Proof.
  induction l as [|f l IH]; intros b; simpl.
  - split; [lia|]. intros H. destruct (H 0%nat) as (fb & E & _); [lia|discriminate].
  - destruct (N.ltb_spec max_b (field_of f)) as [Hgt|Hle].
    + split; [lia|]. intros H. destruct (H 0%nat) as (fb & E & Hfb); [lia|].
      simpl in E. inversion E; subst fb. lia.
    + split.
      * intros Hb b' Hb'. destruct b' as [|b']; simpl.
        -- exists f. split; [reflexivity|exact Hle].
        -- apply (proj1 (IH (b - 1)%nat)); lia.
      * intros H. destruct b as [|b]; [lia|].
        apply -> Nat.succ_lt_mono. apply IH. intros b' Hb'.
        apply (H (S b')). lia.
Qed.

(** X8: [predict] (and [update], which leaves the same trace) tests the
    pair of positions [(a, b)] exactly when [b < a], the field of the
    feature at [a] is at least [min_a_field], and the fields of all the
    features at positions [0 .. b] are at most [max_b_field]. *)
Theorem tested_pair_iff (m : model) (start : list feature) (norm kappa : F)
    (mask : N -> N) (a b : nat) :
  u_log (update_loop m start norm kappa mask) =
    p_log (snd (predict_loop m start norm mask)) /\
  (In (a, b) (positions (p_log (snd (predict_loop m start norm mask)))) <->
   (b < a)%nat /\
   (exists fa, nth_error start a = Some fa /\ min_a_field m <= field_of fa) /\
   (forall b', (b' <= b)%nat ->
               exists fb, nth_error start b' = Some fb /\ field_of fb <= max_b_field m)).
Proof.
  split; [apply update_loop_log|].
  rewrite predict_loop_positions. unfold tested_pairs. rewrite in_flat_map. split.
  - intros (a0 & Ha0 & Hin). apply in_seq in Ha0.
    destruct (nth_error start a0) as [fa|] eqn:E; [|contradiction].
    destruct (N.ltb_spec (field_of fa) (min_a_field m)) as [Hlt|Hge]; [contradiction|].
    apply in_map_iff in Hin. destruct Hin as (b0 & Hpair & Hb0).
    inversion Hpair; subst a0 b0; clear Hpair.
    apply in_seq in Hb0. destruct Hb0 as [_ Hb0]. simpl in Hb0.
    pose proof (scan_length_le (max_b_field m) (firstn a start)) as Hle.
    rewrite length_firstn in Hle.
    assert (Hba : (b < a)%nat) by lia.
    repeat split; [exact Hba|exists fa; auto|].
    intros b' Hb'. apply scan_length_lt with (b' := b') in Hb0; [|exact Hb'].
    destruct Hb0 as (fb & Efb & Hfb). exists fb. split; [|exact Hfb].
    rewrite nth_error_firstn_lt in Efb by lia. exact Efb.
  - intros (Hba & (fa & Efa & Hfa) & Hall). exists a. split.
    + apply in_seq. split; [lia|]. simpl.
      apply nth_error_Some. rewrite Efa. discriminate.
    + rewrite Efa.
      replace (field_of fa <? min_a_field m) with false
        by (symmetry; apply N.ltb_ge; exact Hfa).
      apply in_map_iff. exists b. split; [reflexivity|].
      apply in_seq. split; [lia|]. simpl.
      apply scan_length_lt. intros b' Hb'.
      destruct (Hall b' Hb') as (fb & Efb & Hfb). exists fb. split; [|exact Hfb].
      rewrite nth_error_firstn_lt by lia. exact Efb.
Qed.

Lemma tested_pairs_before (m : model) (start : list feature) (p : nat) (f : feature) :
  nth_error start p = Some f ->
  max_b_field m < field_of f ->
  forall a b, In (a, b) (tested_pairs m start) -> (b < p)%nat.
Proof.
  intros Ep Hf a b Hin. unfold tested_pairs in Hin. apply in_flat_map in Hin.
  destruct Hin as (a0 & _ & Hin).
  destruct (nth_error start a0) as [fa|]; [|contradiction].
  destruct (field_of fa <? min_a_field m); [contradiction|].
  apply in_map_iff in Hin. destruct Hin as (b0 & Hpair & Hb0).
  inversion Hpair; subst a0 b0; clear Hpair.
  apply in_seq in Hb0. destruct Hb0 as [_ Hb0]. simpl in Hb0.
  pose proof (scan_length_le (max_b_field m) (firstn a start)) as Hle.
  rewrite length_firstn in Hle.
  destruct (Nat.lt_ge_cases b p) as [Hlt|Hge]; [exact Hlt|].
  assert (Hba : (b < a)%nat) by lia.
  apply scan_length_lt with (b' := p) in Hb0; [|exact Hge].
  destruct Hb0 as (fb & Efb & Hfb).
  rewrite nth_error_firstn_lt in Efb by lia. rewrite Ep in Efb.
  inversion Efb; subst fb. lia.
Qed.

Lemma scan_stops_at_violation_aux (m : model) (start : list feature) (norm : F)
    (mask : N -> N) (p : nat) (f : feature) :
  nth_error start p = Some f ->
  max_b_field m < field_of f ->
  forall e, In e (p_log (snd (predict_loop m start norm mask))) -> (ev_b e < p)%nat.
Proof.
  intros Ep Hf e He.
  apply (tested_pairs_before m start p f Ep Hf (ev_a e) (ev_b e)).
  rewrite <- (predict_loop_positions m start norm mask).
  unfold positions. apply in_map_iff. exists e. split; [reflexivity|exact He].
Qed.

(** X9: a feature at position [p] whose field exceeds [max_b_field]
    stops every inner scan: no pair whose inner member is at position [p]
    or later is tested, by [predict] or by [update], whatever the fields
    of the later features. *)
Theorem scan_stops_at_violation (m : model) (start : list feature) (norm kappa : F)
    (mask : N -> N) (p : nat) (f : feature) :
  nth_error start p = Some f ->
  max_b_field m < field_of f ->
  Forall (fun e => (ev_b e < p)%nat) (p_log (snd (predict_loop m start norm mask))) /\
  Forall (fun e => (ev_b e < p)%nat) (u_log (update_loop m start norm kappa mask)).
Proof.
  intros Ep Hf. rewrite update_loop_log.
  assert (H : Forall (fun e => (ev_b e < p)%nat)
                (p_log (snd (predict_loop m start norm mask)))).
  { apply Forall_forall. intros e He.
    exact (scan_stops_at_violation_aux m start norm mask p f Ep Hf e He). }
  split; exact H.
Qed.

(** X10: when the field of the first feature of the list exceeds
    [max_b_field], no pair at all is tested: [predict] returns the lane
    sum of the broadcast bias plus the linear term, and [update] leaves
    the interaction weights as they were. *)
Theorem first_feature_blocks_pairs (m : model) (f : feature) (rest : list feature)
    (norm kappa : F) (mask : N -> N) :
  max_b_field m < field_of f ->
  p_log (snd (predict_loop m (f :: rest) norm mask)) = [] /\
  predict m (f :: rest) norm mask =
    sum (_mm256_set1_ps (bias_w m)) [+] linear_term m (f :: rest) /\
  weights (update m (f :: rest) norm kappa mask) = weights m.
Proof.
  intros Hf.
  assert (Hlog : p_log (snd (predict_loop m (f :: rest) norm mask)) = []).
  { destruct (p_log (snd (predict_loop m (f :: rest) norm mask))) as [|e log] eqn:E;
      [reflexivity|].
    assert (H : (ev_b e < 0)%nat).
    { apply (scan_stops_at_violation_aux m (f :: rest) norm mask 0 f eq_refl Hf e).
      rewrite E. left. reflexivity. }
    lia. }
  split; [exact Hlog|]. split.
  - rewrite predict_as_sum, predict_total_replay, Hlog. reflexivity.
  - rewrite update_weights_replay, update_loop_log, Hlog. reflexivity.
Qed.


(** ** Which mask bits matter *)

Lemma all_pairs_length_succ (n : nat) :
  length (all_pairs (S n)) = (length (all_pairs n) + n)%nat.
Proof. rewrite all_pairs_succ, length_app, length_map, length_seq. reflexivity. Qed.

Lemma all_pairs_length_mono (a n : nat) :
  (a <= n)%nat -> (length (all_pairs a) <= length (all_pairs n))%nat.
Proof.
  induction 1 as [|n _ IH]; [lia|]. rewrite all_pairs_length_succ. lia.
Qed.

Section TwoMasks.

Variables (m : model) (start : list feature) (norm kappa : F) (mask mask' : N -> N).
Hypothesis agree : masks_agree (length (all_pairs (length start))) mask mask'.

Lemma predict_inner_masks (fa : feature) (a : nat) (fbs : list feature) :
  forall (b : nat) (st : predict_state),
    p_i st = uint_wrap (N.of_nat (length (p_log st))) ->
    (length (p_log st) + length fbs <= length (all_pairs (length start)))%nat ->
    predict_inner m fa a norm mask fbs b st = predict_inner m fa a norm mask' fbs b st /\
    p_i (predict_inner m fa a norm mask fbs b st) =
      uint_wrap (N.of_nat (length (p_log (predict_inner m fa a norm mask fbs b st)))) /\
    (length (p_log (predict_inner m fa a norm mask fbs b st)) <=
     length (p_log st) + length fbs)%nat.
Proof.
  induction fbs as [|fb fbs IH]; intros b st Hi Hlen; simpl.
  - repeat split; [exact Hi|lia].
  - destruct (max_b_field m <? field_of fb); [repeat split; [exact Hi|lia]|].
    simpl in Hlen.
    rewrite Hi, <- (agree (length (p_log st))) by lia. rewrite <- Hi.
    destruct (test_mask_bit mask (p_i st) =? 0).
    + match goal with
      | |- context [predict_inner m fa a norm mask fbs (S b) ?s] =>
          destruct (IH (S b) s) as (E & Hi' & Hl)
      end.
      * cbn [p_i p_log]. rewrite length_app, Nat.add_1_r, Hi. apply uint_wrap_succ.
      * cbn [p_log]. rewrite length_app. simpl. lia.
      * cbn [p_log] in Hl. rewrite length_app in Hl. simpl in Hl.
        repeat split; [exact E|exact Hi'|lia].
    + match goal with
      | |- context [predict_inner m fa a norm mask fbs (S b) ?s] =>
          destruct (IH (S b) s) as (E & Hi' & Hl)
      end.
      * cbn [p_i p_log]. rewrite length_app, Nat.add_1_r, Hi. apply uint_wrap_succ.
      * cbn [p_log]. rewrite length_app. simpl. lia.
      * cbn [p_log] in Hl. rewrite length_app in Hl. simpl in Hl.
        repeat split; [exact E|exact Hi'|lia].
Qed.

Lemma predict_outer_masks (linear_norm : F) (rest : list feature) :
  forall (a : nat) (linear_total : F) (st : predict_state),
    (a + length rest = length start)%nat ->
    p_i st = uint_wrap (N.of_nat (length (p_log st))) ->
    (length (p_log st) <= length (all_pairs a))%nat ->
    predict_outer m start linear_norm norm mask a rest linear_total st =
    predict_outer m start linear_norm norm mask' a rest linear_total st.
Proof.
  induction rest as [|fa rest IH]; intros a linear_total st Hn Hi Hlen; simpl.
  - reflexivity.
  - simpl in Hn.
    pose proof (all_pairs_length_succ a) as Hs.
    pose proof (all_pairs_length_mono (S a) (length start) ltac:(lia)) as Hmono.
    destruct (field_of fa <? min_a_field m).
    + apply IH; [lia|exact Hi|lia].
    + pose proof (length_firstn a start) as Hfirst.
      destruct (predict_inner_masks fa a (firstn a start) 0 st Hi) as (E & Hi' & Hl);
        [lia|].
      rewrite <- E. apply IH; [lia|exact Hi'|lia].
Qed.

Lemma update_inner_masks (fa : feature) (a : nat) (fbs : list feature) :
  forall (b : nat) (st : update_state),
    u_i st = uint_wrap (N.of_nat (length (u_log st))) ->
    (length (u_log st) + length fbs <= length (all_pairs (length start)))%nat ->
    update_inner m fa a norm kappa mask fbs b st =
      update_inner m fa a norm kappa mask' fbs b st /\
    u_i (update_inner m fa a norm kappa mask fbs b st) =
      uint_wrap (N.of_nat (length (u_log (update_inner m fa a norm kappa mask fbs b st)))) /\
    (length (u_log (update_inner m fa a norm kappa mask fbs b st)) <=
     length (u_log st) + length fbs)%nat.
Proof.
  induction fbs as [|fb fbs IH]; intros b st Hi Hlen; simpl.
  - repeat split; [exact Hi|lia].
  - destruct (max_b_field m <? field_of fb); [repeat split; [exact Hi|lia]|].
    simpl in Hlen.
    rewrite Hi, <- (agree (length (u_log st))) by lia. rewrite <- Hi.
    destruct (test_mask_bit mask (u_i st) =? 0).
    + match goal with
      | |- context [update_inner m fa a norm kappa mask fbs (S b) ?s] =>
          destruct (IH (S b) s) as (E & Hi' & Hl)
      end.
      * cbn [u_i u_log]. rewrite length_app, Nat.add_1_r, Hi. apply uint_wrap_succ.
      * cbn [u_log]. rewrite length_app. simpl. lia.
      * cbn [u_log] in Hl. rewrite length_app in Hl. simpl in Hl.
        repeat split; [exact E|exact Hi'|lia].
    + match goal with
      | |- context [update_inner m fa a norm kappa mask fbs (S b) ?s] =>
          destruct (IH (S b) s) as (E & Hi' & Hl)
      end.
      * cbn [u_i u_log]. rewrite length_app, Nat.add_1_r, Hi. apply uint_wrap_succ.
      * cbn [u_log]. rewrite length_app. simpl. lia.
      * cbn [u_log] in Hl. rewrite length_app in Hl. simpl in Hl.
        repeat split; [exact E|exact Hi'|lia].
Qed.

Lemma update_outer_masks (linear_norm : F) (rest : list feature) :
  forall (a : nat) (st : update_state),
    (a + length rest = length start)%nat ->
    u_i st = uint_wrap (N.of_nat (length (u_log st))) ->
    (length (u_log st) <= length (all_pairs a))%nat ->
    update_outer m start linear_norm norm kappa mask a rest st =
    update_outer m start linear_norm norm kappa mask' a rest st.
Proof.
  induction rest as [|fa rest IH]; intros a st Hn Hi Hlen; simpl.
  - reflexivity.
  - simpl in Hn.
    pose proof (all_pairs_length_succ a) as Hs.
    pose proof (all_pairs_length_mono (S a) (length start) ltac:(lia)) as Hmono.
    destruct (field_of fa <? min_a_field m).
    + apply IH; cbn [u_i u_log]; [lia|exact Hi|lia].
    + pose proof (length_firstn a start) as Hfirst.
      match goal with
      | |- context [update_inner m fa a norm kappa mask (firstn a start) 0 ?s] =>
          destruct (update_inner_masks fa a (firstn a start) 0 s Hi) as (E & Hi' & Hl)
      end.
      * cbn [u_log]. lia.
      * rewrite <- E. apply IH; [lia|exact Hi'|cbn [u_log] in Hl; lia].
Qed.

End TwoMasks.

(** X11: the results depend on the mask only through the bits numbered
    by the pair counter: two masks that agree on the first
    [n * (n - 1) / 2] counter values (32-bit) give the same score and the
    same updated model on a list of [n] features. *)
Theorem mask_bits_that_matter (m : model) (start : list feature) (norm kappa : F)
    (mask mask' : N -> N) :
  masks_agree (pair_count (length start)) mask mask' ->
  predict m start norm mask = predict m start norm mask' /\
  update m start norm kappa mask = update m start norm kappa mask'.
Proof.
  intros Hagree. rewrite <- all_pairs_length in Hagree. split.
  - assert (E : predict_loop m start norm mask = predict_loop m start norm mask').
    { unfold predict_loop.
      apply (predict_outer_masks m start norm mask mask' Hagree);
        [reflexivity|reflexivity|simpl; lia]. }
    unfold predict. rewrite E. reflexivity.
  - assert (E : update_loop m start norm kappa mask = update_loop m start norm kappa mask').
    { unfold update_loop.
      apply (update_outer_masks m start norm kappa mask mask' Hagree);
        [reflexivity|reflexivity|simpl; lia]. }
    unfold update. rewrite E. reflexivity.
Qed.

End TraceFacts.

Section StoreFacts.

Context {F : Type} {ops : FloatOps F} {hb : HashBits}.
Local Open Scope ffm_scope.

Local Abbreviation feature := (ffm_feature F).
Local Abbreviation model := (ffm_model F).

(** ** Updates that apply no pair *)

Lemma update_inner_zero_mask (m : model) (fa : feature) (a : nat) (norm kappa : F)
    (mask : N -> N) (fbs : list feature) :
  zero_mask mask ->
  forall (b : nat) (st : update_state),
    u_weights (update_inner m fa a norm kappa mask fbs b st) = u_weights st.
Proof.
  intros Hz. induction fbs as [|fb fbs IH]; intros b st; simpl.
  - reflexivity.
  - destruct (max_b_field m <? field_of fb); [reflexivity|].
    rewrite (Hz (u_i st)). simpl. rewrite IH. reflexivity.
Qed.

Lemma update_outer_no_pair (m : model) (start : list feature) (linear_norm norm kappa : F)
    (mask : N -> N) (rest : list feature) :
  zero_mask mask \/ Forall (fun f => field_of f < min_a_field m) rest ->
  forall (a : nat) (st : update_state),
    u_weights (update_outer m start linear_norm norm kappa mask a rest st) = u_weights st.
Proof.
  induction rest as [|fa rest IH]; intros H a st; simpl.
  - reflexivity.
  - assert (Hrest : zero_mask mask \/ Forall (fun f => field_of f < min_a_field m) rest).
    { destruct H as [Hz|Hlow]; [left; exact Hz|right]. inversion Hlow; assumption. }
    destruct (N.ltb_spec (field_of fa) (min_a_field m)) as [Hlt|Hge].
    + rewrite IH by exact Hrest. reflexivity.
    + rewrite IH by exact Hrest. destruct H as [Hz|Hlow].
      * rewrite update_inner_zero_mask by exact Hz. reflexivity.
      * inversion Hlow; subst. lia.
Qed.

(** X12: under an all-zero mask, or when the field of every feature is
    below [min_a_field], [update] leaves the whole interaction tensor,
    weights and accumulators, as it was; only the linear table and the
    bias move. *)
Theorem update_without_pairs (m : model) (start : list feature) (norm kappa : F)
    (mask : N -> N) :
  zero_mask mask \/ Forall (fun f => field_of f < min_a_field m) start ->
  weights (update m start norm kappa mask) = weights m.
Proof.
  intros H. unfold update, update_loop. cbn [weights].
  rewrite update_outer_no_pair by exact H. reflexivity.
Qed.

(** ** What [update] leaves alone *)

(** X13: [update] writes the linear table only at the two slots of the
    hashed ids that occur in the feature list, and the interaction tensor
    only inside the blocks [block(id_a, field_b)] of two features of the
    list; every other offset keeps its value. *)
Theorem update_frame (m : model) (start : list feature) (norm kappa : F)
    (mask : N -> N) :
  (forall off,
     (forall f, In f start ->
                off <> hashed_index f * 2 /\ off <> hashed_index f * 2 + 1) ->
     linear_weights (update m start norm kappa mask) off = linear_weights m off) /\
  (forall off,
     (forall fa fb, In fa start -> In fb start ->
        off < block_offset (hashed_index fa) (field_of fb) \/
        block_offset (hashed_index fa) (field_of fb) + field_stride <= off) ->
     weights (update m start norm kappa mask) off = weights m off).
Proof.
  split; intros off Hoff.
  - destruct (update_preserves m start norm kappa mask (fun _ => True)
                (fun lw => lw off = linear_weights m off)) as [_ H]; auto.
    intros fa lw Hfa Hq. unfold update_linear.
    destruct (Hoff fa Hfa) as [H0 H1].
    rewrite !store_other by assumption. exact Hq.
  - destruct (update_preserves m start norm kappa mask
                (fun w => w off = weights m off) (fun _ => True)) as [H _]; auto.
    intros fa fb w Hfa Hfb Hp.
    rewrite update_pair_frame; [exact Hp| |]; apply Hoff; assumption.
Qed.

(** ** The linear table *)

Lemma update_inner_linear (m : model) (fa : feature) (a : nat) (norm kappa : F)
    (mask : N -> N) (fbs : list feature) :
  forall (b : nat) (st : update_state),
    u_linear_weights (update_inner m fa a norm kappa mask fbs b st) = u_linear_weights st.
Proof.
  induction fbs as [|fb fbs IH]; intros b st; simpl.
  - reflexivity.
  - destruct (max_b_field m <? field_of fb); [reflexivity|].
    destruct (test_mask_bit mask (u_i st) =? 0); rewrite IH; reflexivity.
Qed.

Lemma update_outer_linear (m : model) (start : list feature) (linear_norm norm kappa : F)
    (mask : N -> N) (rest : list feature) :
  forall (a : nat) (st : update_state),
    u_linear_weights (update_outer m start linear_norm norm kappa mask a rest st) =
    fold_left (fun lw fa => update_linear m fa linear_norm kappa lw) rest
      (u_linear_weights st).
Proof.
  induction rest as [|fa rest IH]; intros a st; simpl.
  - reflexivity.
  - destruct (field_of fa <? min_a_field m); rewrite IH.
    + reflexivity.
    + rewrite update_inner_linear. reflexivity.
Qed.

Lemma fold_linear_other (m : model) (linear_norm kappa : F) (idx : N)
    (l : list feature) :
  (forall f, In f l -> hashed_index f <> idx) ->
  forall lw,
    fold_left (fun lw fa => update_linear m fa linear_norm kappa lw) l lw (idx * 2) =
      lw (idx * 2) /\
    fold_left (fun lw fa => update_linear m fa linear_norm kappa lw) l lw (idx * 2 + 1) =
      lw (idx * 2 + 1).
Proof.
  induction l as [|f l IH]; intros Hl lw; simpl.
  - split; reflexivity.
  - assert (Hf : hashed_index f <> idx) by (apply Hl; left; reflexivity).
    destruct (IH (fun g Hg => Hl g (or_intror Hg))
                (update_linear m f linear_norm kappa lw)) as [E0 E1].
    rewrite E0, E1. unfold update_linear.
    rewrite !store_other by lia. split; reflexivity.
Qed.

Lemma filter_none (A : Type) (f : A -> bool) (l : list A) :
  length (filter f l) = 0%nat -> forall x, In x l -> f x = false.
Proof.
  induction l as [|y l IH]; intros H x Hx; [contradiction|].
  simpl in H. destruct (f y) eqn:E; [discriminate H|].
  destruct Hx as [<-|Hx]; [exact E|apply IH; assumption].
Qed.

Lemma occurs_once_split (fa : feature) (l1 l2 : list feature) :
  occurs_once fa (l1 ++ fa :: l2) ->
  (forall f, In f l1 -> hashed_index f <> hashed_index fa) /\
  (forall f, In f l2 -> hashed_index f <> hashed_index fa).
Proof.
  unfold occurs_once. rewrite filter_app, length_app. cbn [filter].
  rewrite N.eqb_refl. cbn [length].
  set (same := fun f : feature => hashed_index f =? hashed_index fa). intros H.
  assert (H1 : length (filter same l1) = 0%nat) by lia.
  assert (H2 : length (filter same l2) = 0%nat) by lia.
  split; intros f Hf E;
    [pose proof (filter_none _ same l1 H1 f Hf) as Hn
    |pose proof (filter_none _ same l2 H2 f Hf) as Hn];
    unfold same in Hn; rewrite E, N.eqb_refl in Hn; discriminate Hn.
Qed.

(** X14: the linear table after [update] is the left fold of the
    per-feature step over the whole list, whatever the fields, the norm
    and the mask.  For a feature whose hashed id occurs once in the list,
    with [g = lambda * w + kappa * value / |features|], the accumulator
    becomes [acc + g * g] and the weight [w - eta * g / sqrt (acc + g * g)]. *)
Theorem update_linear_step (m : model) (start : list feature) (norm kappa : F)
    (mask : N -> N) :
  let lw := linear_weights m in
  let lw' := linear_weights (update m start norm kappa mask) in
  let linear_norm := of_count (N.of_nat (length start)) in
  lw' = fold_left (fun lw fa => update_linear m fa linear_norm kappa lw) start lw /\
  forall fa, In fa start -> occurs_once fa start ->
    let idx := hashed_index fa in
    let g := lambda m [*] lw (idx * 2) [+] kappa [*] value fa [/] linear_norm in
    lw' (idx * 2 + 1) = lw (idx * 2 + 1) [+] g [*] g /\
    lw' (idx * 2) = lw (idx * 2) [-] eta m [*] g [/] fsqrt (lw (idx * 2 + 1) [+] g [*] g).
Proof.
  cbv zeta.
  assert (Hfold : linear_weights (update m start norm kappa mask) =
                  fold_left
                    (fun lw fa =>
                       update_linear m fa (of_count (N.of_nat (length start))) kappa lw)
                    start (linear_weights m)).
  { unfold update, update_loop. cbn [linear_weights].
    rewrite update_outer_linear. reflexivity. }
  split; [exact Hfold|]. intros fa Hin Honce. rewrite Hfold.
  destruct (in_split fa start Hin) as (l1 & l2 & ->).
  destruct (occurs_once_split fa l1 l2 Honce) as [H1 H2].
  rewrite fold_left_app. simpl.
  set (ln := of_count (N.of_nat (length (l1 ++ fa :: l2)))).
  destruct (fold_linear_other m ln kappa (hashed_index fa) l1 H1 (linear_weights m))
    as [A0 A1].
  set (lw1 := fold_left (fun lw f => update_linear m f ln kappa lw) l1 (linear_weights m))
    in *.
  destruct (fold_linear_other m ln kappa (hashed_index fa) l2 H2
              (update_linear m fa ln kappa lw1)) as [B0 B1].
  rewrite B0, B1. unfold update_linear.
  rewrite store_same, store_other by lia. rewrite store_same.
  rewrite A0, A1. split; reflexivity.
Qed.

(** ** The empty feature list *)

(** X15: on an empty feature list nothing is divided by the feature
    count: [predict] returns the lane sum of the broadcast bias plus the
    zero linear total, and [update] changes the bias pair only. *)
Theorem empty_feature_list (m : model) (norm kappa : F) (mask : N -> N) :
  predict m [] norm mask = sum (_mm256_set1_ps (bias_w m)) [+] fzero /\
  weights (update m [] norm kappa mask) = weights m /\
  linear_weights (update m [] norm kappa mask) = linear_weights m /\
  bias_wg (update m [] norm kappa mask) = bias_wg m [+] kappa.
Proof. repeat split. Qed.

(** ** What [predict] reads *)

Lemma load_block_eq (w w' : N -> F) (k d : N) :
  (forall t, t < n_dim_aligned -> w' (k * field_stride + t) = w (k * field_stride + t)) ->
  d = 0 \/ d = 8 ->
  _mm256_load_ps w' (k * field_stride + d) = _mm256_load_ps w (k * field_stride + d).
Proof.
  intros H Hd. unfold _mm256_load_ps.
  rewrite <- !N.add_assoc.
  replace (k * field_stride + d) with (k * field_stride + (d + 0)) by lia.
  f_equal; apply H; change n_dim_aligned with 16; lia.
Qed.

Lemma predict_pair_same_forward (m m' : model) (fa fb : feature) (norm : F)
    (acc : m256 F) :
  same_forward m m' ->
  predict_pair m' fa fb norm acc = predict_pair m fa fb norm acc.
Proof.
  intros (_ & _ & _ & _ & Hw). rewrite !predict_pair_unfold. cbv zeta.
  rewrite !block_offset_aligned.
  set (ka := hashed_index fa * n_fields + field_of fb).
  set (kb := hashed_index fb * n_fields + field_of fa).
  rewrite <- (N.add_0_r (ka * field_stride)) at 1 3.
  rewrite <- (N.add_0_r (kb * field_stride)) at 1 3.
  rewrite !(load_block_eq (weights m) (weights m')) by (auto; intros; apply Hw; assumption).
  reflexivity.
Qed.

Lemma predict_inner_same_forward (m m' : model) (fa : feature) (a : nat) (norm : F)
    (mask : N -> N) (fbs : list feature) :
  same_forward m m' ->
  forall (b : nat) (st : predict_state),
    predict_inner m' fa a norm mask fbs b st = predict_inner m fa a norm mask fbs b st.
Proof.
  intros Hs. induction fbs as [|fb fbs IH]; intros b st; simpl.
  - reflexivity.
  - destruct Hs as (Hmax & Hrest). rewrite Hmax.
    destruct (max_b_field m <? field_of fb); [reflexivity|].
    destruct (test_mask_bit mask (p_i st) =? 0); rewrite IH; [reflexivity|].
    rewrite (predict_pair_same_forward m m') by (split; assumption). reflexivity.
Qed.

Lemma predict_outer_same_forward (m m' : model) (start : list feature)
    (linear_norm norm : F) (mask : N -> N) (rest : list feature) :
  same_forward m m' ->
  forall (a : nat) (linear_total : F) (st : predict_state),
    predict_outer m' start linear_norm norm mask a rest linear_total st =
    predict_outer m start linear_norm norm mask a rest linear_total st.
Proof.
  intros Hs. induction rest as [|fa rest IH]; intros a linear_total st; simpl.
  - reflexivity.
  - pose proof Hs as (_ & Hmin & _ & Hl & _). rewrite Hmin, Hl.
    destruct (field_of fa <? min_a_field m); rewrite IH; [reflexivity|].
    rewrite (predict_inner_same_forward m m') by exact Hs. reflexivity.
Qed.

(** X16: [predict] reads the field bounds, the bias weight, the linear
    weights and the first [n_dim_aligned] lanes of the blocks, and
    nothing else: two models that agree on these give the same score on
    every input, whatever their AdaGrad accumulators, [eta] and
    [lambda]. *)
Theorem predict_reads_weights_only (m m' : model) (start : list feature) (norm : F)
    (mask : N -> N) :
  same_forward m m' ->
  predict m' start norm mask = predict m start norm mask.
Proof.
  intros Hs. unfold predict, predict_loop.
  pose proof Hs as (_ & _ & Hb & _). rewrite Hb.
  rewrite (predict_outer_same_forward m m') by exact Hs. reflexivity.
Qed.


End StoreFacts.

(** * Properties of the binary32 arithmetic *)

(** ** Rounding never loses a number that is not tiny *)

Section Binary32Rounding.

Local Open Scope Z_scope.

(** The number of binary digits of a mantissa. *)
Lemma digits2_pos_size (p : positive) : digits2_pos p = Pos.size p.
Proof. induction p as [p IH|p IH|]; simpl; rewrite ?IH; reflexivity. Qed.

Lemma Zdigits2_log2 (p : positive) : Zdigits2 (Zpos p) = Z.log2 (Zpos p) + 1.
Proof.
  unfold Zdigits2. rewrite digits2_pos_size.
  destruct p as [p|p|]; simpl; try rewrite Pos2Z.inj_succ; try reflexivity; lia.
Qed.

(** [shr_1] halves the mantissa of a shift record; [n] steps shift it by [n]. *)
Lemma shr_1_m (mrs : shr_record) :
  0 <= shr_m mrs -> shr_m (shr_1 mrs) = Z.div2 (shr_m mrs).
Proof.
  destruct mrs as [m r s]. simpl. intros Hm.
  destruct m as [|p|p]; [reflexivity| |lia].
  destruct p; reflexivity.
Qed.

Lemma iter_shr_1_m (p : positive) :
  forall mrs, 0 <= shr_m mrs ->
    shr_m (iter_pos shr_1 p mrs) = Z.shiftr (shr_m mrs) (Zpos p).
Proof.
  induction p as [p IH|p IH|]; intros mrs Hm; simpl.
  - assert (H1 : 0 <= shr_m (shr_1 mrs)).
    { rewrite shr_1_m by exact Hm. rewrite Z.div2_div. apply Z.div_pos; lia. }
    assert (H2 : 0 <= shr_m (iter_pos shr_1 p (shr_1 mrs))).
    { rewrite IH by exact H1. apply Z.shiftr_nonneg. exact H1. }
    rewrite IH by exact H2. rewrite IH by exact H1. rewrite shr_1_m by exact Hm.
    rewrite Z.div2_spec. rewrite !Z.shiftr_shiftr by lia. f_equal. lia.
  - assert (H2 : 0 <= shr_m (iter_pos shr_1 p mrs)).
    { rewrite IH by exact Hm. apply Z.shiftr_nonneg. exact Hm. }
    rewrite IH by exact H2. rewrite IH by exact Hm.
    rewrite !Z.shiftr_shiftr by lia. f_equal. lia.
  - rewrite shr_1_m by exact Hm. apply Z.div2_spec.
Qed.

Lemma shr_record_of_loc_m (m : Z) (l : location) : shr_m (shr_record_of_loc m l) = m.
Proof. destruct l as [|[ | | ]]; reflexivity. Qed.

Lemma fexp_ge_emin (e : Z) : b32_emin <= fexp b32_prec b32_emax e.
Proof. unfold fexp, b32_emin. lia. Qed.

(** Bringing a positive mantissa to the exponent of its format leaves a
    positive mantissa, unless the number is below the least subnormal. *)
Lemma shr_fexp_positive (m e : Z) (l : location) :
  0 < m -> b32_emin < Zdigits2 m + e ->
  0 < shr_m (fst (shr_fexp b32_prec b32_emax m e l)) /\
  b32_emin <= snd (shr_fexp b32_prec b32_emax m e l).
Proof.
  intros Hm He. unfold shr_fexp, shr.
  pose proof (fexp_ge_emin (Zdigits2 m + e)) as Hf.
  destruct m as [|p|p]; try lia.
  remember (fexp b32_prec b32_emax (Zdigits2 (Zpos p) + e) - e) as n eqn:Hn.
  destruct n as [|q|q]; cbn [fst snd].
  - rewrite shr_record_of_loc_m. lia.
  - rewrite iter_shr_1_m by (rewrite shr_record_of_loc_m; lia).
    rewrite shr_record_of_loc_m. split; [|lia].
    rewrite Z.shiftr_div_pow2 by lia.
    apply Z.div_str_pos. split; [apply Z.pow_pos_nonneg; lia|].
    rewrite Zdigits2_log2 in *.
    destruct (Z.log2_spec (Zpos p)) as [Hlo _]; [lia|].
    apply Z.le_trans with (2 ^ Z.log2 (Zpos p)); [|exact Hlo].
    apply Z.pow_le_mono_r; [lia|].
    unfold fexp, b32_emin, emin, b32_prec, b32_emax in *. lia.
  - rewrite shr_record_of_loc_m. lia.
Qed.

Lemma round_nearest_even_ge (m : Z) (l : location) : m <= round_nearest_even m l.
Proof.
  destruct l as [|[ | | ]]; simpl; try lia. destruct (Z.even m); lia.
Qed.

Lemma Zdigits2_positive (m : Z) : 0 < m -> 0 < Zdigits2 m.
Proof. destruct m; simpl; lia. Qed.

(** Rounding such a number gives a number other than zero, or an
    infinity. *)
Lemma binary_round_aux_divisor (s : bool) (m e : Z) (l : location) :
  0 < m -> b32_emin < Zdigits2 m + e ->
  b32_divisor (binary_round_aux b32_prec b32_emax s m e l) = true.
Proof.
  intros Hm He. unfold binary_round_aux.
  destruct (shr_fexp_positive m e l Hm He) as [H1 H2].
  destruct (shr_fexp b32_prec b32_emax m e l) as [mrs' e'] eqn:E1. cbn [fst snd] in *.
  set (m2 := round_nearest_even (shr_m mrs') (loc_of_shr_record mrs')).
  assert (Hm2 : 0 < m2).
  { pose proof (round_nearest_even_ge (shr_m mrs') (loc_of_shr_record mrs')). unfold m2. lia. }
  assert (He2 : b32_emin < Zdigits2 m2 + e').
  { pose proof (Zdigits2_positive m2 Hm2). lia. }
  destruct (shr_fexp_positive m2 e' loc_Exact Hm2 He2) as [H3 _].
  destruct (shr_fexp b32_prec b32_emax m2 e' loc_Exact) as [mrs'' e''] eqn:E2.
  cbn [fst] in H3.
  destruct (shr_m mrs'') as [|q|q]; try lia.
  destruct (e'' <=? b32_emax - b32_prec); reflexivity.
Qed.

Lemma bounded_emin (m : positive) (e : Z) :
  bounded b32_prec b32_emax m e = true -> b32_emin <= e.
Proof.
  unfold bounded, canonical_mantissa. intros H.
  apply andb_prop in H. destruct H as [H _]. apply Z.eqb_eq in H.
  pose proof (fexp_ge_emin (Zpos (digits2_pos m) + e)). lia.
Qed.

(** The square root of a positive representable number is one. *)
Lemma SFsqrt_divisor (m : positive) (e : Z) :
  bounded b32_prec b32_emax m e = true ->
  b32_divisor (SFsqrt b32_prec b32_emax (S754_finite false m e)) = true.
Proof.
  intros Hb. pose proof (bounded_emin m e Hb) as He.
  unfold SFsqrt, SFsqrt_core_binary.
  set (d := Zdigits2 (Zpos m)).
  set (e' := Z.min (fexp b32_prec b32_emax (Z.div2 (d + e + 1))) (Z.div2 e)).
  assert (He' : b32_emin <= e' /\ 2 * e' <= e).
  { pose proof (fexp_ge_emin (Z.div2 (d + e + 1))) as Hf.
    unfold e'. rewrite !Z.div2_div in *.
    pose proof (Z.div_mod e 2 ltac:(lia)) as Hd.
    pose proof (Z.mod_pos_bound e 2 ltac:(lia)) as Hr.
    unfold b32_emin, emin, b32_prec, b32_emax in *. lia. }
  destruct He' as [Hlo Hhi].
  set (m' := match e - 2 * e' with
             | 0 => Zpos m
             | Zpos _ => Z.shiftl (Zpos m) (e - 2 * e')
             | Zneg _ => 0
             end).
  assert (Hm' : 0 < m').
  { unfold m'. destruct (e - 2 * e') as [|p|p] eqn:Es; try lia.
    rewrite Z.shiftl_mul_pow2 by lia.
    apply Z.mul_pos_pos; [lia|apply Z.pow_pos_nonneg; lia]. }
  pose proof (Z.sqrtrem_spec m' ltac:(lia)) as Hs.
  destruct (Z.sqrtrem m') as [q r].
  assert (Hq : 0 < q) by nia.
  apply binary_round_aux_divisor; [exact Hq|].
  pose proof (Zdigits2_positive q Hq). lia.
Qed.

(** So is the feature count of a non-empty list, converted to binary32. *)
Lemma binary_normalize_divisor (p : positive) :
  b32_divisor (binary_normalize b32_prec b32_emax (Zpos p) 0 false) = true.
Proof.
  unfold binary_normalize, binary_round, shl_align.
  pose proof (fexp_ge_emin (Zpos (digits2_pos p) + 0)) as Hf.
  destruct (fexp b32_prec b32_emax (Zpos (digits2_pos p) + 0) - 0) as [|q|q] eqn:E;
    apply binary_round_aux_divisor; try lia;
    match goal with |- _ < Zdigits2 ?x + _ => pose proof (Zdigits2_positive x ltac:(lia)) end;
    unfold b32_emin, emin, b32_prec, b32_emax in *; lia.
Qed.

End Binary32Rounding.

Lemma of_count_divisor (rsqrt : spec_float -> spec_float) (n : N) :
  0 < n -> b32_divisor (of_count (FloatOps:=binary32_ops rsqrt) n) = true.
Proof.
  intros Hn. cbn [of_count binary32_ops].
  destruct n as [|p]; [lia|]. apply binary_normalize_divisor.
Qed.

(** ** Arithmetic on zeros *)

Lemma SFmul_zero_l (x y : spec_float) :
  b32_is_zero x = true -> b32_finite y = true ->
  b32_is_zero (SFmul b32_prec b32_emax x y) = true.
Proof. destruct x, y; simpl; intros; try discriminate; reflexivity. Qed.

Lemma SFmul_zero_r (x y : spec_float) :
  b32_finite x = true -> b32_is_zero y = true ->
  b32_is_zero (SFmul b32_prec b32_emax x y) = true.
Proof. destruct x, y; simpl; intros; try discriminate; reflexivity. Qed.

Lemma SFmul_zero_self (g : spec_float) :
  b32_is_zero g = true -> SFmul b32_prec b32_emax g g = S754_zero false.
Proof. destruct g as [[|]| | |]; simpl; intros; try discriminate; reflexivity. Qed.

Lemma SFadd_zero_zero (x y : spec_float) :
  b32_is_zero x = true -> b32_is_zero y = true ->
  b32_is_zero (SFadd b32_prec b32_emax x y) = true.
Proof.
  destruct x as [[|]| | |], y as [[|]| | |]; simpl; intros; try discriminate; reflexivity.
Qed.

Lemma SFdiv_zero (x y : spec_float) :
  b32_is_zero x = true -> b32_divisor y = true ->
  b32_is_zero (SFdiv b32_prec b32_emax x y) = true.
Proof. destruct x, y; simpl; intros; try discriminate; reflexivity. Qed.

Lemma SFadd_positive_zero (acc : spec_float) :
  b32_positive acc = true -> SFadd b32_prec b32_emax acc (S754_zero false) = acc.
Proof. destruct acc as [s|[|]| |[|] m e]; simpl; intros; try discriminate; reflexivity. Qed.

Lemma SFadd_positive_any_zero (acc z : spec_float) :
  b32_positive acc = true -> b32_is_zero z = true -> SFadd b32_prec b32_emax acc z = acc.
Proof.
  destruct acc as [s|[|]| |[|] m e], z; simpl; intros; try discriminate; reflexivity.
Qed.

Lemma SFsub_zero_unchanged (w z : spec_float) :
  b32_is_zero z = true -> b32_unchanged w (SFsub b32_prec b32_emax w z).
Proof.
  unfold b32_unchanged.
  destruct w as [[|]|[|]| |sw mw ew], z as [[|]| | |]; simpl; intros; try discriminate;
    auto.
Qed.

Lemma SFsub_plus_zero (z : spec_float) :
  b32_is_zero z = true -> SFsub b32_prec b32_emax (S754_zero false) z = S754_zero false.
Proof. destruct z as [[|]| | |]; simpl; intros; try discriminate; reflexivity. Qed.

Lemma SFadd_plus_zero (z : spec_float) :
  b32_is_zero z = true -> SFadd b32_prec b32_emax (S754_zero false) z = S754_zero false.
Proof. destruct z as [[|]| | |]; simpl; intros; try discriminate; reflexivity. Qed.

Lemma b32_is_zero_finite (x : spec_float) : b32_is_zero x = true -> b32_finite x = true.
Proof. destruct x; simpl; intros; try discriminate; reflexivity. Qed.

Lemma b32_unchanged_refl (x : spec_float) : b32_unchanged x x.
Proof. left. reflexivity. Qed.

Lemma b32_unchanged_trans (x y z : spec_float) :
  b32_unchanged x y -> b32_unchanged y z -> b32_unchanged x z.
Proof.
  unfold b32_unchanged. intros [->|[-> ->]] [->|[H ->]]; auto; discriminate.
Qed.

Lemma b32_unchanged_finite (x y : spec_float) :
  b32_unchanged x y -> b32_finite x = true -> b32_finite y = true.
Proof. intros [->|[_ ->]] H; [exact H|reflexivity]. Qed.

Lemma b32_unchanged_positive (x y : spec_float) :
  b32_unchanged x y -> b32_positive x = true -> y = x.
Proof. intros [->|[-> _]] H; [reflexivity|discriminate]. Qed.

Lemma SFsqrt_positive_divisor (x : spec_float) :
  b32_positive x = true -> b32_valid x = true ->
  b32_divisor (SFsqrt b32_prec b32_emax x) = true.
Proof.
  destruct x as [s|[|]| |[|] m e]; simpl; intros Hp Hv; try discriminate.
  - reflexivity.
  - apply SFsqrt_divisor. exact Hv.
Qed.

(** ** One lane of the update with a zero gradient *)

Section Binary32Steps.

Variable rsqrt : spec_float -> spec_float.
Context {hb : HashBits}.

Local Abbreviation ops32 := (binary32_ops rsqrt).
Local Abbreviation feature := (ffm_feature spec_float).
Local Abbreviation model := (ffm_model spec_float).
Local Abbreviation n_blocks := (n_features * n_fields)%N.

(** Both ways for a lane gradient to be a zero. *)
Lemma lane_grad_zero_scalars (lam kv ws wo : spec_float) :
  b32_is_zero lam = true -> b32_is_zero kv = true ->
  b32_finite ws = true -> b32_finite wo = true ->
  b32_is_zero (lane_grad (ops:=ops32) lam kv ws wo) = true.
Proof.
  intros. unfold lane_grad. cbn [fadd fmul binary32_ops].
  apply SFadd_zero_zero; apply SFmul_zero_l; assumption.
Qed.


(** A zero gradient leaves the accumulator and steps the weight by a zero. *)
Lemma lane_zero_step (e ws acc g : spec_float) :
  b32_is_zero g = true -> b32_finite e = true ->
  b32_positive acc = true -> b32_finite (rsqrt acc) = true ->
  lane_acc (ops:=ops32) acc g = acc /\
  b32_unchanged ws (lane_step (ops:=ops32) e ws (lane_acc (ops:=ops32) acc g) g) /\
  (ws = S754_zero false ->
   lane_step (ops:=ops32) e ws (lane_acc (ops:=ops32) acc g) g = S754_zero false).
Proof.
  intros Hg He Ha Hr.
  assert (Hacc : lane_acc (ops:=ops32) acc g = acc).
  { unfold lane_acc. cbn [fadd fmul binary32_ops].
    rewrite SFmul_zero_self by exact Hg. apply SFadd_positive_zero. exact Ha. }
  rewrite Hacc. unfold lane_step. cbn [fsub fmul frsqrt binary32_ops].
  assert (Hz : b32_is_zero
                 (SFmul b32_prec b32_emax e (SFmul b32_prec b32_emax (rsqrt acc) g)) = true).
  { apply SFmul_zero_r; [exact He|]. apply SFmul_zero_r; assumption. }
  repeat split.
  - apply SFsub_zero_unchanged. exact Hz.
  - intros ->. apply SFsub_plus_zero. exact Hz.
Qed.

(** ** A zero gradient *)

Lemma pair_scalar_zero (kappa va vb norm : spec_float) :
  b32_is_zero kappa = true -> b32_finite va = true -> b32_finite vb = true ->
  b32_divisor norm = true ->
  b32_is_zero
    (SFdiv b32_prec b32_emax
       (SFmul b32_prec b32_emax (SFmul b32_prec b32_emax kappa va) vb) norm) = true.
Proof.
  intros Hk Ha Hb Hn. apply SFdiv_zero; [|exact Hn].
  apply SFmul_zero_l; [|exact Hb]. apply SFmul_zero_l; assumption.
Qed.

Lemma update_pair_zero_gradient (m : model) (fa fb : feature) (norm kappa : spec_float)
    (w : N -> spec_float) :
  regular_state rsqrt m ->
  b32_is_zero (lambda m) = true -> b32_is_zero kappa = true ->
  b32_finite (value fa) = true -> b32_finite (value fb) = true ->
  b32_divisor norm = true ->
  (forall off, b32_unchanged (weights m off) (w off)) ->
  forall off, b32_unchanged (weights m off) (update_pair (ops:=ops32) m fa fb norm kappa w off).
Proof.
  intros (He & _ & _ & Hreg) Hl Hk Hva Hvb Hn Hinv off.
  pose proof (pair_scalar_zero kappa (value fa) (value fb) norm Hk Hva Hvb Hn) as Hkv.
  assert (Hfin : forall k t, t < n_dim_aligned -> b32_finite (w (k * field_stride + t)) = true).
  { intros k t Ht. destruct (Hreg k t Ht) as (Hf & _).
    exact (b32_unchanged_finite _ _ (Hinv _) Hf). }
  assert (Hacc : forall k t, t < n_dim_aligned ->
                   w (k * field_stride + n_dim_aligned + t) =
                   weights m (k * field_stride + n_dim_aligned + t)).
  { intros k t Ht. destruct (Hreg k t Ht) as (_ & Hp & _).
    exact (b32_unchanged_positive _ _ (Hinv _) Hp). }
  destruct (offset_cases (block_offset (hashed_index fa) (field_of fb))
              (block_offset (hashed_index fb) (field_of fa)) off)
    as [(t & Ht & Hoff)|[Ha Hb]].
  - destruct (update_pair_lanes (ops:=ops32) m fa fb norm kappa w t Ht)
      as (Hga & Hgb & Hwa & Hwb).
    rewrite !block_offset_aligned in *.
    set (ka := hashed_index fa * n_fields + field_of fb) in *.
    set (kb := hashed_index fb * n_fields + field_of fa) in *.
    cbn [fmul fdiv binary32_ops] in Hga, Hgb, Hwa, Hwb.
    set (kv := SFdiv b32_prec b32_emax
                 (SFmul b32_prec b32_emax (SFmul b32_prec b32_emax kappa (value fa))
                    (value fb)) norm) in *.
    assert (Gab : b32_is_zero
                    (lane_grad (ops:=ops32) (lambda m) kv (w (ka * field_stride + t))
                       (w (kb * field_stride + t))) = true)
      by (apply lane_grad_zero_scalars; auto).
    assert (Gba : b32_is_zero
                    (lane_grad (ops:=ops32) (lambda m) kv (w (kb * field_stride + t))
                       (w (ka * field_stride + t))) = true)
      by (apply lane_grad_zero_scalars; auto).
    destruct (Hreg ka t Ht) as (_ & Hpa & Hra). destruct (Hreg kb t Ht) as (_ & Hpb & Hrb).
    rewrite <- (Hacc ka t Ht) in Hpa, Hra. rewrite <- (Hacc kb t Ht) in Hpb, Hrb.
    destruct (lane_zero_step (eta m) (w (ka * field_stride + t)) _ _ Gab He Hpa Hra)
      as (Ea & Ua & _).
    destruct (lane_zero_step (eta m) (w (kb * field_stride + t)) _ _ Gba He Hpb Hrb)
      as (Eb & Ub & _).
    destruct Hoff as [->|[->|[->| ->]]].
    + rewrite Hwa. eapply b32_unchanged_trans; [apply Hinv|exact Ua].
    + rewrite Hga, Ea. apply Hinv.
    + rewrite Hwb. eapply b32_unchanged_trans; [apply Hinv|exact Ub].
    + rewrite Hgb, Eb. apply Hinv.
  - rewrite update_pair_frame by assumption. apply Hinv.
Qed.

Lemma update_linear_zero_gradient (m : model) (fa : feature) (n : N)
    (kappa : spec_float) (lw : N -> spec_float) :
  regular_state rsqrt m ->
  b32_is_zero (lambda m) = true -> b32_is_zero kappa = true ->
  b32_finite (value fa) = true -> 0 < n ->
  (forall off, b32_unchanged (linear_weights m off) (lw off)) ->
  forall off,
    b32_unchanged (linear_weights m off)
      (update_linear (ops:=ops32) m fa (of_count (FloatOps:=ops32) n) kappa lw off).
Proof.
  intros (He & _ & Hreg & _) Hl Hk Hva Hn Hinv off.
  set (idx := hashed_index fa).
  destruct (Hreg idx) as (Hf & Hp & Hv).
  assert (Hw : b32_finite (lw (idx * 2)) = true)
    by exact (b32_unchanged_finite _ _ (Hinv _) Hf).
  assert (Hacc : lw (idx * 2 + 1) = linear_weights m (idx * 2 + 1))
    by exact (b32_unchanged_positive _ _ (Hinv _) Hp).
  unfold update_linear. fold idx. cbn [fadd fsub fmul fdiv fsqrt binary32_ops].
  set (g := SFadd b32_prec b32_emax (SFmul b32_prec b32_emax (lambda m) (lw (idx * 2)))
              (SFdiv b32_prec b32_emax (SFmul b32_prec b32_emax kappa (value fa))
                 (of_count (FloatOps:=ops32) n))).
  assert (Hg : b32_is_zero g = true).
  { apply SFadd_zero_zero.
    - apply SFmul_zero_l; assumption.
    - apply SFdiv_zero; [apply SFmul_zero_l; assumption|].
      apply of_count_divisor. exact Hn. }
  rewrite (SFmul_zero_self g Hg), Hacc, (SFadd_positive_zero _ Hp).
  destruct (N.eq_dec off (idx * 2 + 1)) as [->|H1].
  - rewrite store_same. left. reflexivity.
  - rewrite store_other by exact H1.
    destruct (N.eq_dec off (idx * 2)) as [->|H0].
    + rewrite store_same.
      eapply b32_unchanged_trans; [apply Hinv|].
      apply SFsub_zero_unchanged. apply SFdiv_zero.
      * apply SFmul_zero_r; assumption.
      * apply SFsqrt_positive_divisor; assumption.
    + rewrite store_other by exact H0. apply Hinv.
Qed.

(** C5: in binary32, whatever [_mm256_rsqrt_ps] returns elsewhere, on a
    state with finite [eta] and finite weights whose accumulators are
    positive numbers (those of the blocks with a finite estimate of the
    reciprocal square root), for every feature list with finite values,
    every norm other than zero and NaN and every mask, [update] with
    [kappa] and [lambda] zero keeps the hyperparameters and every
    accumulator (blocks, linear table and bias) bit for bit, and keeps
    every weight up to the sign of a zero: a weight keeps its bits unless
    it is [-0], which may become [+0]. *)
Theorem update_zero_gradient (m : model) (start : list feature) (norm kappa : spec_float)
    (mask : N -> N) :
  regular_state rsqrt m -> regular_input start norm ->
  b32_is_zero kappa = true -> b32_is_zero (lambda m) = true ->
  let m' := update (ops:=ops32) m start norm kappa mask in
  eta m' = eta m /\ lambda m' = lambda m /\
  max_b_field m' = max_b_field m /\ min_a_field m' = min_a_field m /\
  b32_unchanged (bias_w m) (bias_w m') /\ bias_wg m' = bias_wg m /\
  (forall off, b32_unchanged (weights m off) (weights m' off)) /\
  (forall off, b32_unchanged (linear_weights m off) (linear_weights m' off)) /\
  (forall k t, t < n_dim_aligned ->
     weights m' (k * field_stride + n_dim_aligned + t) =
     weights m (k * field_stride + n_dim_aligned + t)) /\
  (forall idx, linear_weights m' (idx * 2 + 1) = linear_weights m (idx * 2 + 1)).
Proof.
  intros Hreg [Hn Hvals] Hk Hl. cbv zeta. rewrite Forall_forall in Hvals.
  destruct (update_preserves (ops:=ops32) m start norm kappa mask
              (fun w => forall off, b32_unchanged (weights m off) (w off))
              (fun lw => forall off, b32_unchanged (linear_weights m off) (lw off)))
    as [Hw Hlw].
  - intros fa fb w Ha Hb Hp. apply update_pair_zero_gradient; auto.
  - intros fa lw Ha Hq. apply update_linear_zero_gradient; auto.
    destruct start; [contradiction|simpl; lia].
  - intros off. apply b32_unchanged_refl.
  - intros off. apply b32_unchanged_refl.
  - pose proof Hreg as (He & (Hbp & Hbv) & Hlin & Hblk).
    assert (Hbg : SFadd b32_prec b32_emax (bias_wg m) kappa = bias_wg m)
      by (apply SFadd_positive_any_zero; assumption).
    repeat split; try reflexivity; try assumption.
    + unfold update. cbn [bias_w fadd fsub fmul fdiv fsqrt binary32_ops]. rewrite Hbg.
      apply SFsub_zero_unchanged. apply SFdiv_zero.
      * apply SFmul_zero_r; assumption.
      * apply SFsqrt_positive_divisor; assumption.
    + intros k t Ht. destruct (Hblk k t Ht) as (_ & Hp & _).
      exact (b32_unchanged_positive _ _ (Hw _) Hp).
    + intros idx. destruct (Hlin idx) as (_ & Hp & _).
      exact (b32_unchanged_positive _ _ (Hlw _) Hp).
Qed.

(** ** Padding lanes *)







(** ** The fresh model *)

Lemma linear_fold_zero (lw : N -> spec_float) (c : spec_float) (l : list feature) :
  b32_divisor c = true ->
  (forall f, In f l -> b32_finite (value f) = true /\ lw (hashed_index f * 2) = S754_zero false) ->
  fold_left
    (fun acc f =>
       SFadd b32_prec b32_emax acc
         (SFdiv b32_prec b32_emax
            (SFmul b32_prec b32_emax (value f) (lw (hashed_index f * 2))) c))
    l (S754_zero false) = S754_zero false.
Proof.
  intros Hc. induction l as [|f l IH]; intros Hl; [reflexivity|].
  cbn [fold_left]. destruct (Hl f (or_introl eq_refl)) as [Hv Hw].
  rewrite Hw, SFadd_plus_zero.
  - apply IH. intros g Hg. apply Hl. right. exact Hg.
  - apply SFdiv_zero; [|exact Hc]. apply SFmul_zero_r; [exact Hv|reflexivity].
Qed.

(** X19: in binary32, when the block count fits an [ffm_uint], a model
    fresh from the constructor has no bias and no linear contribution:
    under an all-zero mask its score is exactly [+0] on every list of
    features with finite values, whatever the norm. *)
Theorem fresh_model_scores_zero (draws : N -> spec_float)
    (alloc_w alloc_l : option (N -> spec_float)) (restricted : bool)
    (eta0 lambda0 : spec_float) (m0 : model) (start : list feature) (norm : spec_float)
    (mask : N -> N) :
  n_features * n_fields < 2 ^ uint_bits ->
  ffm_model_ctor (ops:=ops32) draws alloc_w alloc_l restricted eta0 lambda0 = Some m0 ->
  zero_mask mask ->
  Forall (fun f => b32_finite (value f) = true) start ->
  predict (ops:=ops32) m0 start norm mask = S754_zero false.
Proof.
  intros Hfit Hctor Hz Hvals. rewrite Forall_forall in Hvals.
  destruct (ffm_model_ctor_state (ops:=ops32) draws alloc_w alloc_l restricted eta0 lambda0
              m0 Hfit Hctor) as (_ & _ & Hb & _ & Hlin & _).
  rewrite (predict_zero_mask (ops:=ops32) m0 start norm mask Hz), Hb.
  unfold linear_term. cbn [fadd fmul fdiv fzero binary32_ops].
  destruct start as [|f0 rest] eqn:Es; [reflexivity|]. rewrite <- Es in *.
  rewrite linear_fold_zero; [reflexivity| |].
  - apply of_count_divisor. rewrite Es. simpl. lia.
  - intros f Hf. split; [apply Hvals, Hf|].
    apply (Hlin (hashed_index f)), hashed_index_lt.
Qed.

End Binary32Steps.

(** ** The bias weight *)

Section Binary32Facts.

Context {hb : HashBits}.
Variable rsqrt : spec_float -> spec_float.

(** X20: in binary32, whenever the new bias accumulator [bias_wg +
    kappa] is not a positive number (it is a zero, negative or NaN, which
    a negative [kappa] can cause since the accumulator grows by [kappa]
    and not by its square), the bias weight that [update] leaves is an
    infinity or NaN, whatever [eta], the old bias weight and the rest of
    the input. *)
Theorem bias_weight_lost (m : ffm_model spec_float) (start : list (ffm_feature spec_float))
    (norm kappa : spec_float) (mask : N -> N) :
  b32_positive (SFadd b32_prec b32_emax (bias_wg m) kappa) = false ->
  b32_finite (bias_w (update (ops:=binary32_ops rsqrt) m start norm kappa mask)) = false.
Proof.
  intros Hg. unfold update. cbn [bias_w fadd fsub fmul fdiv fsqrt binary32_ops].
  destruct (SFadd b32_prec b32_emax (bias_wg m) kappa) as [s|s| |s mm e];
    try destruct s; try discriminate Hg;
    cbn [SFsqrt];
    destruct (SFmul b32_prec b32_emax (eta m) kappa) as [sx|sx| |sx mx ex];
    cbn [SFdiv];
    destruct (bias_w m) as [sw|sw| |sw mw ew]; try destruct sw; try destruct sx;
    reflexivity.
Qed.

End Binary32Facts.

(** * Runs of the further properties *)

Section FurtherWitnesses.

Local Existing Instance example_hash_bits.
Local Existing Instance run_ops.
Local Open Scope ffm_scope.

(** [ffm_model_ctor_fresh] on a constructed binary32 model. *)
Lemma ffm_model_ctor_fresh_witness :
  exists m,
    ffm_model_ctor (fun _ => b32 1 (-2)) (Some (fun _ => b32_three))
      (Some (fun _ => b32_three)) true b32_one b32_zero = Some m /\
    bias_w m = fzero /\ bias_wg m = fone /\
    linear_weights m (5 * 2) = fzero /\
    linear_weights m (5 * 2 + 1) = fone.
Proof.
  eexists. split; [reflexivity|].
  destruct (ffm_model_ctor_fresh (ops:=run_ops) (hb:=example_hash_bits)
              (fun _ => b32 1 (-2)) (Some (fun _ => b32_three))
              (Some (fun _ => b32_three)) true b32_one b32_zero _ eq_refl eq_refl)
    as (_ & _ & Hb & Hg & Hl & _).
  destruct (Hl 5 eq_refl) as [H0 H1].
  split; [exact Hb|]. split; [exact Hg|]. split; [exact H0|exact H1].
Defined.

(** [unrestricted_tests_all_pairs] on the two-feature example. *)
Lemma unrestricted_tests_all_pairs_witness :
  positions (p_log (snd (predict_loop (ops:=run_ops) fresh_b32
                           [feature_5_b32; feature_9_b32] b32_one mask_1))) =
    all_pairs 2 /\
  positions (u_log (update_loop (ops:=run_ops) fresh_b32
                      [feature_5_b32; feature_9_b32] b32_one b32_three mask_1)) =
    all_pairs 2 /\
  length (p_log (snd (predict_loop (ops:=run_ops) fresh_b32
                        [feature_5_b32; feature_9_b32] b32_one mask_1))) = pair_count 2.
Proof.
  apply (unrestricted_tests_all_pairs (ops:=run_ops) (hb:=example_hash_bits) fresh_b32
           [feature_5_b32; feature_9_b32] b32_one b32_three mask_1).
  - reflexivity.
  - repeat (constructor; [vm_compute; discriminate|]). constructor.
Defined.

(** [scan_stops_at_violation] on the five features of fields 12, 25,
    15, 3, 11: the feature of field 25 is at position 1. *)
Lemma scan_stops_at_violation_witness :
  Forall (fun e => (ev_b e < 1)%nat)
    (p_log (snd (predict_loop (ops:=run_ops) restricted_b32 five_features_b32
                   b32_one mask_101))) /\
  Forall (fun e => (ev_b e < 1)%nat)
    (u_log (update_loop (ops:=run_ops) restricted_b32 five_features_b32
              b32_one b32_one mask_101)).
Proof.
  apply (scan_stops_at_violation (ops:=run_ops) (hb:=example_hash_bits) restricted_b32
           five_features_b32 b32_one b32_one mask_101 1 feature_far_b32).
  - reflexivity.
  - reflexivity.
Defined.

(** [first_feature_blocks_pairs] on a list that starts with the feature
    of field 25. *)
Lemma first_feature_blocks_pairs_witness :
  p_log (snd (predict_loop (ops:=run_ops) restricted_b32
                (feature_far_b32 :: five_features_b32) b32_one full_mask)) = [] /\
  predict (ops:=run_ops) restricted_b32 (feature_far_b32 :: five_features_b32)
    b32_one full_mask =
    sum (_mm256_set1_ps (bias_w restricted_b32))
    [+] linear_term restricted_b32 (feature_far_b32 :: five_features_b32) /\
  weights (update (ops:=run_ops) restricted_b32 (feature_far_b32 :: five_features_b32)
             b32_one b32_three full_mask) = weights restricted_b32.
Proof.
  apply (first_feature_blocks_pairs (ops:=run_ops) (hb:=example_hash_bits)
           restricted_b32 feature_far_b32 five_features_b32 b32_one b32_three full_mask).
  reflexivity.
Defined.

(** [mask_bits_that_matter]: two features make one pair, so only bit 0
    of the mask counts. *)
Lemma mask_bits_that_matter_witness :
  predict (ops:=run_ops) fresh_b32 [feature_5_b32; feature_9_b32] b32_one full_mask =
  predict (ops:=run_ops) fresh_b32 [feature_5_b32; feature_9_b32] b32_one mask_1 /\
  update (ops:=run_ops) fresh_b32 [feature_5_b32; feature_9_b32] b32_one b32_three
    full_mask =
  update (ops:=run_ops) fresh_b32 [feature_5_b32; feature_9_b32] b32_one b32_three mask_1.
Proof.
  apply (mask_bits_that_matter (ops:=run_ops) (hb:=example_hash_bits) fresh_b32
           [feature_5_b32; feature_9_b32] b32_one b32_three full_mask mask_1).
  intros k Hk. destruct k as [|k]; [reflexivity|].
  change (pair_count (length [feature_5_b32; feature_9_b32])) with 1%nat in Hk. lia.
Defined.

(** [update_without_pairs] under the all-zero mask. *)
Lemma update_without_pairs_witness :
  weights (update (ops:=run_ops) fresh_b32 [feature_5_b32; feature_9_b32]
             b32_one b32_three clear_mask) = weights fresh_b32.
Proof.
  apply (update_without_pairs (ops:=run_ops) (hb:=example_hash_bits) fresh_b32
           [feature_5_b32; feature_9_b32] b32_one b32_three clear_mask).
  left. intros i. unfold test_mask_bit, clear_mask. rewrite N.shiftr_0_l. reflexivity.
Defined.

(** [update_linear_step] on the feature of hashed id 5 in a list where
    the hashed id 9 occurs twice. *)
Lemma update_linear_step_witness :
  let m := fresh_b32 in
  let start := [feature_9_b32; feature_5_b32; feature_9_b32] in
  let lw := linear_weights m in
  let lw' := linear_weights (update (ops:=run_ops) m start b32_one b32_three full_mask) in
  let g := lambda m [*] lw (5 * 2)
           [+] b32_three [*] value feature_5_b32 [/] of_count (FloatOps:=run_ops) 3 in
  lw' (5 * 2 + 1) = lw (5 * 2 + 1) [+] g [*] g /\
  lw' (5 * 2) = lw (5 * 2) [-] eta m [*] g [/] fsqrt (lw (5 * 2 + 1) [+] g [*] g).
Proof.
  cbv zeta.
  destruct (update_linear_step (ops:=run_ops) (hb:=example_hash_bits) fresh_b32
              [feature_9_b32; feature_5_b32; feature_9_b32] b32_one b32_three full_mask)
    as (_ & H).
  apply (H feature_5_b32).
  - right. left. reflexivity.
  - reflexivity.
Defined.

(** [predict_reads_weights_only]: the fresh model and the model with
    other step sizes and accumulators score alike. *)
Lemma predict_reads_weights_only_witness :
  predict (ops:=run_ops) fresh_b32_retuned [feature_5_b32; feature_9_b32] b32_one
    full_mask =
  predict (ops:=run_ops) fresh_b32 [feature_5_b32; feature_9_b32] b32_one full_mask.
Proof.
  apply (predict_reads_weights_only (ops:=run_ops) (hb:=example_hash_bits)
           fresh_b32 fresh_b32_retuned).
  repeat split.
  - intros idx. cbn [fresh_b32 fresh_b32_retuned linear_weights].
    rewrite N.even_mul. simpl. rewrite orb_true_r. reflexivity.
  - intros k t Ht. cbn [fresh_b32_retuned weights].
    rewrite N.add_comm, N.Div0.mod_add.
    rewrite N.mod_small
      by (revert Ht; change n_dim_aligned with 16; change field_stride with 32; lia).
    replace (t <? n_dim_aligned) with true by (symmetry; apply N.ltb_lt; exact Ht).
    reflexivity.
Defined.

(** [bias_weight_lost]: the fresh accumulator 1 and [kappa = -1]. *)
Lemma bias_weight_lost_witness :
  b32_finite
    (bias_w (update (ops:=run_ops) fresh_b32 [feature_5_b32; feature_9_b32] b32_one
               (b32 (-1) 0) full_mask)) = false.
Proof.
  apply (bias_weight_lost (hb:=example_hash_bits) rsqrt_by_division fresh_b32).
  reflexivity.
Defined.

End FurtherWitnesses.

(** * Runs of the update in binary32 *)

Section Binary32StepRuns.

Local Existing Instance example_hash_bits.
Local Existing Instance run_ops.
Local Open Scope ffm_scope.

Lemma fresh_b32_weights (k d : N) :
  d < field_stride ->
  weights fresh_b32 (k * field_stride + d) =
    if d <? n_dim then b32 1 (-2) else if d <? n_dim_aligned then b32_zero else b32_one.
Proof.
  intros Hd. cbn [fresh_b32 weights].
  rewrite N.add_comm, N.Div0.mod_add, N.mod_small by exact Hd. reflexivity.
Qed.

Lemma fresh_b32_linear_weights (idx : N) :
  linear_weights fresh_b32 (idx * 2) = b32_zero /\
  linear_weights fresh_b32 (idx * 2 + 1) = b32_one.
Proof.
  cbn [fresh_b32 linear_weights]. rewrite N.even_add, N.even_mul. simpl.
  rewrite orb_true_r. split; reflexivity.
Qed.

(** [fresh_b32] is the model that the constructor returns when every
    draw is 1/4. *)
Lemma fresh_b32_constructed (rsqrt : spec_float -> spec_float) :
  ffm_model_ctor (ops:=binary32_ops rsqrt) (fun _ => b32 1 (-2))
    (Some (weights fresh_b32)) (Some (linear_weights fresh_b32)) false b32_one b32_zero =
  Some fresh_b32.
Proof.
  unfold ffm_model_ctor, malloc_aligned_float.
  assert (Hw : init_weights (ops:=binary32_ops rsqrt) (fun _ => b32 1 (-2))
                 (weights fresh_b32) (uint_wrap (n_features * n_fields)) =
               weights fresh_b32).
  { apply functional_extensionality. intros off.
    set (n := uint_wrap (n_features * n_fields)).
    destruct (init_weights_spec (ops:=binary32_ops rsqrt) (fun _ => b32 1 (-2))
                (weights fresh_b32) n)
      as (Hdraw & Hpad & Hone & Hframe).
    destruct (N.lt_ge_cases off (n * field_stride)) as [Hin|Hout]; [|apply Hframe, Hout].
    pose proof (N.div_mod' off field_stride) as Hoff.
    pose proof (N.mod_lt off field_stride ltac:(discriminate)) as Hd.
    set (k := off / field_stride) in *. set (d := off mod field_stride) in *.
    assert (Hk : k < n) by (revert Hin Hd; change field_stride with 32 in *; nia).
    replace off with (k * field_stride + d) by lia.
    rewrite fresh_b32_weights by exact Hd.
    destruct (N.ltb_spec d n_dim) as [H1|H1]; [apply Hdraw; assumption|].
    destruct (N.ltb_spec d n_dim_aligned) as [H2|H2].
    - apply Hpad; [exact Hk|lia].
    - apply Hone; [exact Hk|lia]. }
  assert (Hl : init_linear_weights (ops:=binary32_ops rsqrt) (linear_weights fresh_b32)
                 (uint_wrap n_features) = linear_weights fresh_b32).
  { apply functional_extensionality. intros off.
    set (n := uint_wrap n_features).
    destruct (init_linear_weights_spec (ops:=binary32_ops rsqrt)
                (linear_weights fresh_b32) n) as (Hin & Hframe).
    destruct (N.lt_ge_cases off (n * 2)) as [Hlt|Hout]; [|apply Hframe, Hout].
    pose proof (N.div_mod' off 2) as Hoff.
    pose proof (N.mod_lt off 2 ltac:(discriminate)) as Hd.
    set (idx := off / 2) in *. set (d := off mod 2) in *.
    assert (Hk : idx < n) by lia.
    destruct (Hin idx Hk) as [H0 H1].
    destruct (fresh_b32_linear_weights idx) as [F0 F1].
    assert (Hcase : d = 0 \/ d = 1) by lia.
    destruct Hcase as [E|E]; rewrite E in Hoff.
    - replace off with (idx * 2) by lia. rewrite F0. exact H0.
    - replace off with (idx * 2 + 1) by lia. rewrite F1. exact H1. }
  rewrite Hw, Hl. reflexivity.
Qed.

(** On [fresh_b32] a zero gradient is a zero step. *)
Lemma fresh_b32_regular : regular_state rsqrt_by_division fresh_b32.
Proof.
  repeat split.
  - destruct (fresh_b32_linear_weights idx) as [-> _]. reflexivity.
  - destruct (fresh_b32_linear_weights idx) as [_ ->]. reflexivity.
  - destruct (fresh_b32_linear_weights idx) as [_ ->]. reflexivity.
  - rewrite fresh_b32_weights
      by (revert H; change n_dim_aligned with 16; change field_stride with 32; lia).
    destruct (t <? n_dim); [reflexivity|]. destruct (t <? n_dim_aligned); reflexivity.
  - rewrite <- N.add_assoc, fresh_b32_weights
      by (revert H; change n_dim_aligned with 16; change field_stride with 32; lia).
    replace (n_dim_aligned + t <? n_dim) with false
      by (symmetry; apply N.ltb_ge; change n_dim_aligned with 16; change n_dim with 14; lia).
    replace (n_dim_aligned + t <? n_dim_aligned) with false
      by (symmetry; apply N.ltb_ge; lia).
    reflexivity.
  - rewrite <- N.add_assoc, fresh_b32_weights
      by (revert H; change n_dim_aligned with 16; change field_stride with 32; lia).
    replace (n_dim_aligned + t <? n_dim) with false
      by (symmetry; apply N.ltb_ge; change n_dim_aligned with 16; change n_dim with 14; lia).
    replace (n_dim_aligned + t <? n_dim_aligned) with false
      by (symmetry; apply N.ltb_ge; lia).
    reflexivity.
Qed.

(** [update_pair_step] on lane 0 of the pair made of the features
    (field 1, hash 9) and (field 0, hash 5), with [kappa = 7]. *)
Lemma update_pair_step_witness :
  let m := fresh_b32 in
  let fa := feature_9_b32 in
  let fb := feature_5_b32 in
  let w := weights m in
  let w' := update_pair m fa fb b32_one (b32 7 0) w in
  let wa := block_offset (hashed_index fa) (field_of fb) in
  let wb := block_offset (hashed_index fb) (field_of fa) in
  let ga := lambda m [*] w (wa + 0)%N
            [+] (b32 7 0 [*] value fa [*] value fb [/] b32_one) [*] w (wb + 0)%N in
  w' (wa + n_dim_aligned + 0)%N = w (wa + n_dim_aligned + 0)%N [+] ga [*] ga /\
  w' (wa + 0)%N =
    w (wa + 0)%N [-] eta m [*] (frsqrt (w' (wa + n_dim_aligned + 0)%N) [*] ga).
Proof.
  cbv zeta.
  destruct (update_pair_step (ops:=run_ops) (hb:=example_hash_bits) fresh_b32
              feature_9_b32 feature_5_b32 1 0 b32_one (b32 7 0) full_mask []
              {| u_i := 0; u_weights := weights fresh_b32;
                 u_linear_weights := linear_weights fresh_b32; u_log := [] |} 0)
    as (_ & Hacc & Hw & _).
  - vm_compute. discriminate.
  - reflexivity.
  - reflexivity.
  - split; [exact Hacc|exact Hw].
Defined.

(** The weight step is not a division by the square root.  On the
    constructed model [fresh_b32], [update] on the features (field 0,
    hash 5, 1.0) and (field 1, hash 9, 2.0) with norm 1 and [kappa = 7]:
    the gradient of lane 0 of block(9, 0) is 3.5 and its new accumulator
    13.25.  Even with an estimate more accurate than the instruction
    promises, the rounded quotient of 1 by the rounded square root, the
    weight that [update] stores, [-11937390 * 2^-24], is not the weight
    of the formula [w - eta * grad / sqrt acc], [-11937391 * 2^-24], in
    either order of its operations. *)
Lemma update_pair_step_not_division :
  let m := fresh_b32 in
  let m1 := update m [feature_5_b32; feature_9_b32] b32_one (b32 7 0) full_mask in
  let wa := block_offset 9 0 in
  let wb := block_offset 5 1 in
  let ga := lambda m [*] weights m wa
            [+] (b32 7 0 [*] b32_two [*] b32_one [/] b32_one) [*] weights m wb in
  let acc' := weights m1 (wa + n_dim_aligned)%N in
  ga = b32 7 (-1) /\ acc' = b32 53 (-2) /\
  weights m1 wa = b32 (-11937390) (-24) /\
  adagrad_step (eta m) (weights m wa) acc' ga = b32 (-11937391) (-24) /\
  adagrad_step' (eta m) (weights m wa) acc' ga = b32 (-11937391) (-24) /\
  weights m1 wa <> adagrad_step (eta m) (weights m wa) acc' ga /\
  weights m1 wa <> adagrad_step' (eta m) (weights m wa) acc' ga.
Proof. vm_compute. repeat split; discriminate. Qed.



(** [update_zero_gradient] on [fresh_b32], whose [lambda] is zero, with
    [kappa = 0] and norm 1. *)
Lemma update_zero_gradient_witness :
  let m := fresh_b32 in
  let m' := update m [feature_5_b32; feature_9_b32] b32_one b32_zero full_mask in
  eta m' = eta m /\ lambda m' = lambda m /\
  max_b_field m' = max_b_field m /\ min_a_field m' = min_a_field m /\
  b32_unchanged (bias_w m) (bias_w m') /\ bias_wg m' = bias_wg m /\
  (forall off, b32_unchanged (weights m off) (weights m' off)) /\
  (forall off, b32_unchanged (linear_weights m off) (linear_weights m' off)) /\
  (forall k t, t < n_dim_aligned ->
     weights m' (k * field_stride + n_dim_aligned + t) =
     weights m (k * field_stride + n_dim_aligned + t)) /\
  (forall idx, linear_weights m' (idx * 2 + 1) = linear_weights m (idx * 2 + 1)).
Proof.
  apply (update_zero_gradient rsqrt_by_division (hb:=example_hash_bits) fresh_b32
           [feature_5_b32; feature_9_b32] b32_one b32_zero full_mask).
  - exact fresh_b32_regular.
  - split; [reflexivity|repeat constructor].
  - reflexivity.
  - reflexivity.
Defined.

(** A zero gradient is not a zero step when the norm is zero.  The
    constructed model [fresh_b32] has [lambda = 0], accumulators 1 and
    finite weights; [update] with [kappa = 0] and norm 0 on the features
    (field 0, hash 5, 1.0) and (field 1, hash 9, 2.0) computes the pair
    scalar [0 / 0], and every weight and accumulator of both blocks of
    the pair becomes NaN, whatever [_mm256_rsqrt_ps] returns. *)
Lemma zero_gradient_lost_at_zero_norm :
  let m := fresh_b32 in
  let start := [feature_5_b32; feature_9_b32] in
  let wa := block_offset 9 0 in
  let wb := block_offset 5 1 in
  regular_state rsqrt_by_division m /\ lambda m = b32_zero /\
  Forall (fun f => b32_finite (value f) = true) start /\
  b32_zero [*] b32_two [*] b32_one [/] b32_zero = S754_nan /\
  weights m wa = b32 1 (-2) /\ weights m wb = b32 1 (-2) /\
  weights m (wa + n_dim_aligned)%N = b32_one /\
  weights m (wb + n_dim_aligned)%N = b32_one /\
  forall rsqrt : spec_float -> spec_float,
    let m' := update (ops:=binary32_ops rsqrt) m start b32_zero b32_zero full_mask in
    weights m' wa = S754_nan /\ weights m' wb = S754_nan /\
    weights m' (wa + n_dim_aligned)%N = S754_nan /\
    weights m' (wb + n_dim_aligned)%N = S754_nan.
Proof.
  cbv zeta. split; [exact fresh_b32_regular|].
  split; [reflexivity|]. split; [repeat constructor|].
  do 5 (split; [vm_compute; reflexivity|]).
  intros rsqrt.
  assert (E : forall off, off = 270 * field_stride \/ off = 151 * field_stride \/
                          off = 270 * field_stride + 16 \/ off = 151 * field_stride + 16 ->
                weights (update (ops:=binary32_ops rsqrt) fresh_b32
                           [feature_5_b32; feature_9_b32] b32_zero b32_zero full_mask)
                  off = S754_nan).
  { intros off [->|[->|[->| ->]]]; vm_compute;
      try match goal with |- context [rsqrt ?x] => destruct (rsqrt x) end; reflexivity. }
  split; [apply E; left; reflexivity|].
  split; [apply E; right; left; reflexivity|].
  split; [apply E; right; right; left; reflexivity|].
  apply E; right; right; right; reflexivity.
Qed.

Lemma negative_b32_weights (k d : N) :
  d < field_stride ->
  weights negative_b32 (k * field_stride + d) =
    if k * field_stride + d =? block_offset 9 0 then S754_zero true
    else if d <? n_dim then b32 (-1) (-2)
    else if d <? n_dim_aligned then b32_zero else b32_one.
Proof.
  intros Hd. cbn [negative_b32 weights].
  rewrite (N.add_comm (k * field_stride) d), N.Div0.mod_add, N.mod_small by exact Hd.
  reflexivity.
Qed.

Lemma negative_b32_regular : regular_state rsqrt_by_division negative_b32.
Proof.
  repeat split.
  - destruct (fresh_b32_linear_weights idx) as [E _].
    cbn [negative_b32 linear_weights]. rewrite E. reflexivity.
  - destruct (fresh_b32_linear_weights idx) as [_ E].
    cbn [negative_b32 linear_weights]. rewrite E. reflexivity.
  - destruct (fresh_b32_linear_weights idx) as [_ E].
    cbn [negative_b32 linear_weights]. rewrite E. reflexivity.
  - rewrite negative_b32_weights
      by (revert H; change n_dim_aligned with 16; change field_stride with 32; lia).
    destruct (_ =? _); [reflexivity|].
    destruct (t <? n_dim); [reflexivity|]. destruct (t <? n_dim_aligned); reflexivity.
  - rewrite <- N.add_assoc, negative_b32_weights
      by (revert H; change n_dim_aligned with 16; change field_stride with 32; lia).
    replace (k * field_stride + (n_dim_aligned + t) =? block_offset 9 0) with false.
    2:{ symmetry. apply N.eqb_neq. revert H. change (block_offset 9 0) with (270 * 32).
        change n_dim_aligned with 16. change field_stride with 32. lia. }
    replace (n_dim_aligned + t <? n_dim) with false
      by (symmetry; apply N.ltb_ge; change n_dim_aligned with 16; change n_dim with 14; lia).
    replace (n_dim_aligned + t <? n_dim_aligned) with false
      by (symmetry; apply N.ltb_ge; lia).
    reflexivity.
  - rewrite <- N.add_assoc, negative_b32_weights
      by (revert H; change n_dim_aligned with 16; change field_stride with 32; lia).
    replace (k * field_stride + (n_dim_aligned + t) =? block_offset 9 0) with false.
    2:{ symmetry. apply N.eqb_neq. revert H. change (block_offset 9 0) with (270 * 32).
        change n_dim_aligned with 16. change field_stride with 32. lia. }
    replace (n_dim_aligned + t <? n_dim) with false
      by (symmetry; apply N.ltb_ge; change n_dim_aligned with 16; change n_dim with 14; lia).
    replace (n_dim_aligned + t <? n_dim_aligned) with false
      by (symmetry; apply N.ltb_ge; lia).
    reflexivity.
Qed.

(** A zero gradient can change the sign of a zero.  On [negative_b32],
    which meets every condition of [update_zero_gradient], the weight
    [-0] of lane 0 of block(9, 0) is [+0] after [update] with
    [kappa = 0]: the gradient is [-0] and [-0 - (-0) = +0]. *)
Example negative_zero_weight_changes_sign :
  let m := negative_b32 in
  let m' := update m [feature_5_b32; feature_9_b32] b32_one b32_zero full_mask in
  regular_state rsqrt_by_division m /\
  weights m (block_offset 9 0) = S754_zero true /\
  weights m' (block_offset 9 0) = S754_zero false.
Proof. cbv zeta. split; [exact negative_b32_regular|]. vm_compute. split; reflexivity. Qed.

(** [fresh_model_scores_zero] on the constructed model [fresh_b32] and
    the two-feature example. *)
Lemma fresh_model_scores_zero_witness :
  predict fresh_b32 [feature_5_b32; feature_9_b32] b32_one clear_mask = b32_zero.
Proof.
  apply (fresh_model_scores_zero rsqrt_by_division (hb:=example_hash_bits)
           (fun _ => b32 1 (-2)) (Some (weights fresh_b32))
           (Some (linear_weights fresh_b32)) false b32_one b32_zero fresh_b32
           [feature_5_b32; feature_9_b32] b32_one clear_mask eq_refl
           (fresh_b32_constructed rsqrt_by_division)).
  - intros i. unfold test_mask_bit, clear_mask. rewrite N.shiftr_0_l. reflexivity.
  - repeat constructor.
Defined.

End Binary32StepRuns.
